(** * lifetime: start-up, graceful shutdown and immediate shutdown of services

    A shallow embedding of the Go package [lifetime]: the type [Lifetime]
    with its methods, the interface [Service], and the HTTP and gRPC
    adapters.

    The package is concurrent: every registered service owns a supervising
    goroutine ([Lifetime.start]) and a goroutine that runs [svc.Start()];
    [Init] adds one goroutine that consumes the error channel
    ([handleErrors]) and one that listens for OS signals
    ([handleShutdownSignals]).  The embedding is an interleaving semantics:
    a state records the shared objects of a [Lifetime] and the program point
    of every goroutine, and [step] executes one statement of one goroutine
    (or one action of the environment: a call of the public API, a signal,
    the return of a service's [Start] or [Stop]). *)

From Stdlib Require Import ZArith Lia.
From stdpp Require Import base list strings.

Open Scope Z_scope.
Open Scope nat_scope.

(** * The model *)

(** ** Go values *)

(** The values of Go's [error] interface the package distinguishes.  The
    sentinels are compared by identity ([err == ErrX]); [fmt.Errorf] with
    [%w] builds a new value that is equal to none of them. *)
Inductive error : Type :=
| ErrShutdownSignalReceived
| ErrImmediateShutdownSignalReceived
| http_ErrServerClosed
| grpc_ErrServerStopped
| fmt_Errorf_w (prefix : string) (inner : error)
| errors_New (msg : string).

(** The signals passed to [signal.Notify]. *)
Inductive Signal : Type := SIGINT | SIGTERM | SIGKILL.

(** A Go [error] result: [None] is [nil]. *)
Abbreviation result := (option error).

Definition is_ErrImmediate (err : error) : bool :=
  match err with ErrImmediateShutdownSignalReceived => true | _ => false end.

Definition is_SIGKILL (sig : Signal) : bool :=
  match sig with SIGKILL => true | _ => false end.

(** ** The service adapters *)

(** [httpService.Start], as a function of what [ListenAndServe] returns. *)
Definition httpService_Start (listenAndServe : result) : result :=
  match listenAndServe with
  | None => None
  | Some http_ErrServerClosed => None
  | Some err => Some err
  end.

(** [grpcService.Start], as a function of what [net.Listen] and then
    [server.Serve] return; [Serve] only runs when [Listen] succeeded. *)
Definition grpcService_Start (listen serve : result) : result :=
  match listen with
  | Some err => Some (fmt_Errorf_w "could not listen on tcp address" err)
  | None =>
      match serve with
      | None => None
      | Some grpc_ErrServerStopped => None
      | Some err => Some err
      end
  end.

(** ** The signal listener's loop body *)

(** [count] is a Go [int]: 64 bits, two's complement. *)
Definition max_int : Z := (2 ^ 63 - 1)%Z.
Definition min_int : Z := (- 2 ^ 63)%Z.

(** [count++] *)
Definition int_incr (count : Z) : Z :=
  if (count =? max_int)%Z then min_int else (count + 1)%Z.

(** [if count > 1 || sig == syscall.SIGKILL] chooses the error sent. *)
Definition signal_event (count : Z) (sig : Signal) : error :=
  if (1 <? count)%Z || is_SIGKILL sig
  then ErrImmediateShutdownSignalReceived
  else ErrShutdownSignalReceived.

(** One iteration of the loop of [handleShutdownSignals] after [sig] was
    received: the new [count] and the error that is sent to [errCh]. *)
Definition handleShutdownSignals_iter (count : Z) (sig : Signal) : Z * error :=
  let count := int_incr count in
  (count, signal_event count sig).

(** The loop run on a sequence of received signals, every send accepted:
    the value of [count] and the error sent, per signal. *)
Fixpoint handleShutdownSignals_loop (count : Z) (sigs : list Signal) : list (Z * error) :=
  match sigs with
  | [] => []
  | sig :: sigs =>
      let '(count, err) := handleShutdownSignals_iter count sig in
      (count, err) :: handleShutdownSignals_loop count sigs
  end.

(** ** Goroutines and the shared state *)

(** Program points of [Lifetime.start] (the supervising goroutine). *)
Inductive SupPc : Type :=
| SupEntry                 (* spawned by [Start]; nothing executed yet *)
| SupSelect                (* blocked in [select] *)
| SupSendErr (e : error)   (* at [lifetime.errCh <- startErr] *)
| SupInStop                (* inside [svc.Stop()] *)
| SupWaitStart             (* at [startWg.Wait()] *)
| SupDefer                 (* body finished; [serviceWg.Done()] pending *)
| SupDone.                 (* returned *)

(** Program points of the goroutine [go func() { ... svc.Start() ... }()]. *)
Inductive GoPc : Type :=
| GoNone                   (* not spawned yet *)
| GoSpawned                (* spawned; [svc.Start()] not called yet *)
| GoInStart                (* inside [svc.Start()] *)
| GoSendErr (e : error)    (* at [startErrs <- err] *)
| GoDefer                  (* body finished; [startWg.Done()] pending *)
| GoDone.                  (* returned *)

(** What belongs to one call of [Lifetime.start]: both goroutines, the local
    [startWg], and a record of the calls made on the service.  Every call
    of [Start(svc)] counts as a service of its own. *)
Record Task : Type := mkTask {
  sup : SupPc;
  gofn : GoPc;
  startWg : nat;
  startCalls : nat;              (* calls of [svc.Start] so far *)
  startRet : option result;      (* what [svc.Start] returned, once it has *)
  stopCalls : nat;               (* calls of [svc.Stop] so far *)
  forwarded : option error       (* the error sent to [errCh], once sent *)
}.

(** Program points of the goroutine of [handleErrors]. *)
Inductive DispPc : Type :=
| DispOff                  (* [Init] not called *)
| DispRecv                 (* blocked at [<-lifetime.errCh] *)
| DispGot (e : error)      (* received [e], [ok]; about to test it *)
| DispReturned.            (* left the loop *)

(** Program points of the goroutine of [handleShutdownSignals]. *)
Inductive LisPc : Type :=
| LisOff
| LisRecv (count : Z)              (* blocked at [<-signals] *)
| LisSend (count : Z) (e : error). (* at [lifetime.errCh <- e] *)

Record Lifetime : Type := mkLifetime {
  ctxDone : bool;            (* [ctx] is cancelled, [ctx.Done()] closed *)
  serviceWg : nat;
  errClosed : bool;          (* [errCh] is closed *)
  tasks : list Task;         (* one per call [Start(svc)], in call order *)
  dispatcher : DispPc;
  listener : LisPc;
  signals : option Signal;   (* [make(chan os.Signal, 1)] *)
  logged : list error;       (* what [log.Printf] has reported *)
  exited : option Z          (* exit status once the process has ended *)
}.

Definition set_ctxDone (b : bool) (lt : Lifetime) : Lifetime :=
  mkLifetime b (serviceWg lt) (errClosed lt) (tasks lt) (dispatcher lt)
    (listener lt) (signals lt) (logged lt) (exited lt).
Definition set_serviceWg (n : nat) (lt : Lifetime) : Lifetime :=
  mkLifetime (ctxDone lt) n (errClosed lt) (tasks lt) (dispatcher lt)
    (listener lt) (signals lt) (logged lt) (exited lt).
Definition set_tasks (ts : list Task) (lt : Lifetime) : Lifetime :=
  mkLifetime (ctxDone lt) (serviceWg lt) (errClosed lt) ts (dispatcher lt)
    (listener lt) (signals lt) (logged lt) (exited lt).
Definition set_dispatcher (d : DispPc) (lt : Lifetime) : Lifetime :=
  mkLifetime (ctxDone lt) (serviceWg lt) (errClosed lt) (tasks lt) d
    (listener lt) (signals lt) (logged lt) (exited lt).
Definition set_listener (l : LisPc) (lt : Lifetime) : Lifetime :=
  mkLifetime (ctxDone lt) (serviceWg lt) (errClosed lt) (tasks lt)
    (dispatcher lt) l (signals lt) (logged lt) (exited lt).
Definition set_signals (c : option Signal) (lt : Lifetime) : Lifetime :=
  mkLifetime (ctxDone lt) (serviceWg lt) (errClosed lt) (tasks lt)
    (dispatcher lt) (listener lt) c (logged lt) (exited lt).
Definition set_logged (l : list error) (lt : Lifetime) : Lifetime :=
  mkLifetime (ctxDone lt) (serviceWg lt) (errClosed lt) (tasks lt)
    (dispatcher lt) (listener lt) (signals lt) l (exited lt).
Definition set_exited (c : option Z) (lt : Lifetime) : Lifetime :=
  mkLifetime (ctxDone lt) (serviceWg lt) (errClosed lt) (tasks lt)
    (dispatcher lt) (listener lt) (signals lt) (logged lt) c.

Definition set_sup (p : SupPc) (t : Task) : Task :=
  mkTask p (gofn t) (startWg t) (startCalls t) (startRet t) (stopCalls t)
    (forwarded t).
Definition set_gofn (p : GoPc) (t : Task) : Task :=
  mkTask (sup t) p (startWg t) (startCalls t) (startRet t) (stopCalls t)
    (forwarded t).
Definition set_startWg (n : nat) (t : Task) : Task :=
  mkTask (sup t) (gofn t) n (startCalls t) (startRet t) (stopCalls t)
    (forwarded t).
Definition set_startCalls (n : nat) (t : Task) : Task :=
  mkTask (sup t) (gofn t) (startWg t) n (startRet t) (stopCalls t)
    (forwarded t).
Definition set_startRet (r : option result) (t : Task) : Task :=
  mkTask (sup t) (gofn t) (startWg t) (startCalls t) r (stopCalls t)
    (forwarded t).
Definition set_stopCalls (n : nat) (t : Task) : Task :=
  mkTask (sup t) (gofn t) (startWg t) (startCalls t) (startRet t) n
    (forwarded t).
Definition set_forwarded (e : option error) (t : Task) : Task :=
  mkTask (sup t) (gofn t) (startWg t) (startCalls t) (startRet t)
    (stopCalls t) e.

(** ** The public API *)

(** [New(ctx)]: a fresh context derived from [ctx], an empty wait group and
    an open, unbuffered error channel.  No goroutine runs yet. *)
Definition New : Lifetime :=
  mkLifetime false 0 false [] DispOff LisOff None [] None.

(** [lifetime.cancelFunc()], the cancel function of [context.WithCancel]:
    it closes [Done] the first time and returns at once afterwards. *)
Definition cancelFunc (lt : Lifetime) : Lifetime :=
  if ctxDone lt then lt else set_ctxDone true lt.

(** [Shutdown] *)
Definition Shutdown (lt : Lifetime) : Lifetime := cancelFunc lt.

(** [Init]: [handleErrors()] and [handleShutdownSignals()] start their
    goroutines; [signal.Notify] is in force from here on. *)
Definition Init (lt : Lifetime) : Lifetime :=
  set_listener (LisRecv 0%Z) (set_dispatcher DispRecv lt).

(** [Start(svc)]: [serviceWg.Add(1)] and [go lifetime.start(svc)]. *)
Definition Start (lt : Lifetime) : Lifetime :=
  set_tasks (tasks lt ++ [mkTask SupEntry GoNone 0 0 None 0 None])
    (set_serviceWg (S (serviceWg lt)) lt).

(** [Wait] returns when the counter of [serviceWg] is zero and blocks
    otherwise. *)
Definition Wait_returns (lt : Lifetime) : bool := Nat.eqb (serviceWg lt) 0.

(** A Go panic that nothing recovers ends the process with status 2. *)
Definition panic (lt : Lifetime) : Lifetime := set_exited (Some 2%Z) lt.

(** [os.Exit(code)] *)
Definition os_Exit (code : Z) (lt : Lifetime) : Lifetime :=
  set_exited (Some code) lt.

(** One iteration of the loop of [handleErrors] on what the receive
    [err, ok := <-lifetime.errCh] produced ([None]: [ok] is false, the
    channel is closed). *)
Definition handleErrors_iter (recv : option error) (lt : Lifetime) : Lifetime :=
  match recv with
  | None => set_dispatcher DispReturned (cancelFunc lt)
  | Some err =>
      if is_ErrImmediate err then os_Exit 1%Z lt
      else
        set_dispatcher DispRecv
          (Shutdown (set_logged (logged lt ++ [err]) lt))
  end.

(** ** One step of the program *)

(** Who moves.  The first group is the environment: the callers of the
    public API, the parent context, the operating system, and the code of
    the services (an arbitrary implementation of [Service]: its [Start] may
    return any result at any time, its [Stop] may return at any time or
    never).  The second group is one statement of a goroutine of the
    package. *)
Inductive Label : Type :=
| CallInit
| CallStart
| CallShutdown
| CallWait                                   (* [Wait()] returns *)
| ParentCancel                               (* the context given to [New] is cancelled *)
| OsSignal (sig : Signal)
| SvcStartReturns (i : nat) (r : result)
| SvcStopReturns (i : nat)
| SupGo (i : nat)          (* [startWg.Add(1); go func() {...}()] *)
| GoCall (i : nat)         (* [svc.Start()] is called *)
| GoExit (i : nat)         (* deferred [startWg.Done()] *)
| SelectErr (i : nat)      (* [case startErr := <-startErrs] *)
| SelectDone (i : nat)     (* [case <-lifetime.ctx.Done()], [svc.Stop()] is called *)
| SupWait (i : nat)        (* [startWg.Wait()] returns *)
| SupForward (i : nat)     (* [lifetime.errCh <- startErr] completes *)
| SupExit (i : nat)        (* deferred [serviceWg.Done()] *)
| DispClosed               (* [<-lifetime.errCh] yields [ok == false] *)
| DispHandle               (* the rest of the loop body on a received error *)
| LisTake                  (* [sig := <-signals; count++] *)
| LisForward.              (* [lifetime.errCh <- Err...] completes *)

Definition internal (l : Label) : bool :=
  match l with
  | CallInit | CallStart | CallShutdown | CallWait | ParentCancel
  | OsSignal _ | SvcStartReturns _ _ | SvcStopReturns _ => false
  | _ => true
  end.

(** The statement of task [i] named by the label, on the task alone, where
    the shared state is only read; [None]: the goroutine is elsewhere or
    blocked. *)
Definition task_step (l : Label) (cancelled : bool) (t : Task) : option Task :=
  match l with
  | SvcStartReturns _ r =>
      match gofn t with
      | GoInStart =>
          Some (set_startRet (Some r)
                  (set_gofn (match r with
                             | Some err => GoSendErr err
                             | None => GoDefer
                             end) t))
      | _ => None
      end
  | SvcStopReturns _ =>
      match sup t with
      | SupInStop => Some (set_sup SupWaitStart t)
      | _ => None
      end
  | SupGo _ =>
      match sup t with
      | SupEntry =>
          Some (set_sup SupSelect
                  (set_gofn GoSpawned (set_startWg (S (startWg t)) t)))
      | _ => None
      end
  | GoCall _ =>
      match gofn t with
      | GoSpawned =>
          Some (set_gofn GoInStart (set_startCalls (S (startCalls t)) t))
      | _ => None
      end
  | SelectErr _ =>
      (* the channel is unbuffered: the receive needs the sender at its
         send, and completes the send *)
      match sup t, gofn t with
      | SupSelect, GoSendErr err =>
          Some (set_sup (SupSendErr err) (set_gofn GoDefer t))
      | _, _ => None
      end
  | SelectDone _ =>
      match sup t with
      | SupSelect =>
          if cancelled
          then Some (set_sup SupInStop (set_stopCalls (S (stopCalls t)) t))
          else None
      | _ => None
      end
  | SupWait _ =>
      match sup t, startWg t with
      | SupWaitStart, 0 => Some (set_sup SupDefer t)
      | _, _ => None
      end
  | _ => None
  end.

(** [wg.Done()]: a counter that would become negative panics. *)
Definition wg_Done (n : nat) : option nat :=
  match n with 0 => None | S n => Some n end.

(** A send on [errCh] by a goroutine other than the dispatcher: it panics if
    the channel is closed, completes if the dispatcher is at its receive
    and blocks otherwise. *)
Definition errCh_send (err : error) (lt : Lifetime) : option Lifetime :=
  if errClosed lt then Some (panic lt)
  else match dispatcher lt with
       | DispRecv => Some (set_dispatcher (DispGot err) lt)
       | _ => None
       end.

Definition index_of (l : Label) : option nat :=
  match l with
  | SvcStartReturns i _ | SvcStopReturns i | SupGo i | GoCall i | GoExit i
  | SelectErr i | SelectDone i | SupWait i | SupForward i | SupExit i => Some i
  | _ => None
  end.

Definition live_step (l : Label) (lt : Lifetime) : option Lifetime :=
  match l with
  | CallInit =>
      (* [Init] is called once: a second call would start a second
         dispatcher and a second listener *)
      match dispatcher lt, listener lt with
      | DispOff, LisOff => Some (Init lt)
      | _, _ => None
      end
  | CallStart => Some (Start lt)
  | CallShutdown => Some (Shutdown lt)
  | CallWait => if Wait_returns lt then Some lt else None
  | ParentCancel => Some (set_ctxDone true lt)
  | OsSignal sig =>
      (* before [Init] the package has not subscribed and the signal is not
         its business; [signal.Notify] never blocks: a signal that finds
         the buffer full is dropped *)
      match listener lt with
      | LisOff => None
      | _ =>
          match signals lt with
          | None => Some (set_signals (Some sig) lt)
          | Some _ => Some lt
          end
      end
  | SvcStartReturns i _ | SvcStopReturns i | SupGo i | GoCall i
  | SelectErr i | SelectDone i | SupWait i =>
      t ← tasks lt !! i;
      t' ← task_step l (ctxDone lt) t;
      Some (set_tasks (<[i := t']> (tasks lt)) lt)
  | GoExit i =>
      t ← tasks lt !! i;
      match gofn t with
      | GoDefer =>
          match wg_Done (startWg t) with
          | Some n =>
              Some (set_tasks
                      (<[i := set_gofn GoDone (set_startWg n t)]> (tasks lt)) lt)
          | None => Some (panic lt)
          end
      | _ => None
      end
  | SupForward i =>
      t ← tasks lt !! i;
      match sup t with
      | SupSendErr err =>
          lt' ← errCh_send err lt;
          if errClosed lt then Some lt'
          else Some (set_tasks
                       (<[i := set_sup SupDefer (set_forwarded (Some err) t)]>
                          (tasks lt)) lt')
      | _ => None
      end
  | SupExit i =>
      t ← tasks lt !! i;
      match sup t with
      | SupDefer =>
          match wg_Done (serviceWg lt) with
          | Some n =>
              Some (set_tasks (<[i := set_sup SupDone t]> (tasks lt))
                      (set_serviceWg n lt))
          | None => Some (panic lt)
          end
      | _ => None
      end
  | DispClosed =>
      match dispatcher lt with
      | DispRecv =>
          if errClosed lt then Some (handleErrors_iter None lt) else None
      | _ => None
      end
  | DispHandle =>
      match dispatcher lt with
      | DispGot err => Some (handleErrors_iter (Some err) lt)
      | _ => None
      end
  | LisTake =>
      match listener lt, signals lt with
      | LisRecv count, Some sig =>
          let '(count, err) := handleShutdownSignals_iter count sig in
          Some (set_listener (LisSend count err) (set_signals None lt))
      | _, _ => None
      end
  | LisForward =>
      match listener lt with
      | LisSend count err =>
          lt' ← errCh_send err lt;
          if errClosed lt then Some lt'
          else Some (set_listener (LisRecv count) lt')
      | _ => None
      end
  end.

(** Nothing runs once the process has ended. *)
Definition step (l : Label) (lt : Lifetime) : option Lifetime :=
  match exited lt with
  | Some _ => None
  | None => live_step l lt
  end.

(** A schedule, executed from left to right. *)
Fixpoint run (lt : Lifetime) (tr : list Label) : option Lifetime :=
  match tr with
  | [] => Some lt
  | l :: tr => lt' ← step l lt; run lt' tr
  end.

(** The labels a goroutine of the package could move under, given the number
    of tasks. *)
Definition internal_labels (n : nat) : list Label :=
  [DispClosed; DispHandle; LisTake; LisForward] ++
  flat_map (λ i, [SupGo i; GoCall i; GoExit i; SelectErr i; SelectDone i;
                  SupWait i; SupForward i; SupExit i]) (seq 0 n).

(** No goroutine of the package can move: each has returned or is blocked
    (or the process has ended). *)
Definition quiescent (lt : Lifetime) : bool :=
  forallb (λ l, match step l lt with None => true | Some _ => false end)
    (internal_labels (length (tasks lt))).

(** ** Invariants of the reachable states *)

(** How the goroutine of [svc.Start()] relates to its wait group and to the
    record of the call. *)
Definition go_ok (t : Task) : Prop :=
  match gofn t with
  | GoNone => startWg t = 0 ∧ startCalls t = 0 ∧ startRet t = None
  | GoSpawned => startWg t = 1 ∧ startCalls t = 0 ∧ startRet t = None
  | GoInStart => startWg t = 1 ∧ startCalls t = 1 ∧ startRet t = None
  | GoSendErr e => startWg t = 1 ∧ startCalls t = 1 ∧ startRet t = Some (Some e)
  | GoDefer => startWg t = 1 ∧ startCalls t = 1 ∧ startRet t ≠ None
  | GoDone => startWg t = 0 ∧ startCalls t = 1 ∧ startRet t ≠ None
  end.

(** The goroutine of [svc.Start()] is past its send (or never had one). *)
Definition go_past_send (t : Task) : Prop := gofn t = GoDefer ∨ gofn t = GoDone.

(** How the supervising goroutine relates to the rest of its task, given
    whether the context is cancelled. *)
Definition sup_ok (cancelled : bool) (t : Task) : Prop :=
  match sup t with
  | SupEntry => gofn t = GoNone ∧ stopCalls t = 0 ∧ forwarded t = None
  | SupSelect =>
      gofn t ≠ GoNone ∧ stopCalls t = 0 ∧ forwarded t = None ∧
      (go_past_send t → startRet t = Some None)
  | SupSendErr e =>
      go_past_send t ∧ startRet t = Some (Some e) ∧
      stopCalls t = 0 ∧ forwarded t = None
  | SupInStop | SupWaitStart =>
      gofn t ≠ GoNone ∧ stopCalls t = 1 ∧ forwarded t = None ∧
      cancelled = true ∧ (go_past_send t → startRet t = Some None)
  | SupDefer | SupDone =>
      (go_past_send t ∧ stopCalls t = 0 ∧
       ∃ e, startRet t = Some (Some e) ∧ forwarded t = Some e) ∨
      (gofn t = GoDone ∧ stopCalls t = 1 ∧ forwarded t = None ∧
       cancelled = true ∧ startRet t = Some None)
  end.

Definition task_inv (cancelled : bool) (t : Task) : Prop :=
  go_ok t ∧ sup_ok cancelled t.

(** A supervising goroutine counts in [serviceWg] until its deferred
    [serviceWg.Done()] has run. *)
Definition counted (t : Task) : nat :=
  match sup t with SupDone => 0 | _ => 1 end.

Definition has_forwarded (t : Task) : Prop := forwarded t ≠ None.

Record inv (lt : Lifetime) : Prop := mkInv {
  inv_tasks : Forall (task_inv (ctxDone lt)) (tasks lt);
  inv_wg : serviceWg lt = sum_list_with counted (tasks lt);
  inv_open : errClosed lt = false;
  inv_loop : dispatcher lt ≠ DispReturned;
  inv_init : dispatcher lt = DispOff ↔ listener lt = LisOff;
  inv_fwd :
    Exists has_forwarded (tasks lt) →
    ctxDone lt = true ∨ (∃ e, dispatcher lt = DispGot e) ∨ exited lt ≠ None
}.

Definition reachable (lt : Lifetime) : Prop := ∃ tr, run New tr = Some lt.

(** ** Scenarios *)

(** The example of the package's test file: services a and b are started,
    [Shutdown] is called, b's [Stop] returns before a's, [Wait] returns. *)
Definition example_trace : list Label :=
  [CallInit; CallStart; CallStart; SupGo 0; SupGo 1; GoCall 0; GoCall 1;
   CallShutdown; SelectDone 1; SelectDone 0; SvcStopReturns 1;
   SvcStartReturns 1 None; GoExit 1; SupWait 1; SupExit 1;
   SvcStopReturns 0; SvcStartReturns 0 None; GoExit 0; SupWait 0;
   SupExit 0].

Definition stopped_task : Task :=
  mkTask SupDone GoDone 0 1 (Some None) 1 None.

Definition example_final : Lifetime :=
  mkLifetime true 0 false [stopped_task; stopped_task]
    DispRecv (LisRecv 0%Z) None [] None.

(** A service whose [Start] fails, here because the address is taken. *)
Definition bind_error : error := errors_New "listen tcp :80: bind: address already in use".

Definition failing_trace : list Label :=
  [CallInit; CallStart; SupGo 0; GoCall 0;
   SvcStartReturns 0 (Some bind_error); SelectErr 0; SupForward 0;
   SupExit 0; GoExit 0; DispHandle].

Definition failed_task : Task :=
  mkTask SupDone GoDone 0 1 (Some (Some bind_error)) 0 (Some bind_error).

Definition failing_final : Lifetime :=
  mkLifetime true 0 false [failed_task]
    DispRecv (LisRecv 0%Z) None [bind_error] None.

(** *** Notions for C2 *)

(** The service of the task has a call of [Start] in flight. *)
Definition start_in_flight (t : Task) : Prop := gofn t = GoInStart.

(** The supervising goroutine took the first case of the [select] and has
    sent the start-up error to [errCh]. *)
Definition did_forward (t : Task) : Prop := forwarded t ≠ None.

(** The supervising goroutine took the second case of the [select]: it has
    called [svc.Stop()]; [stop_and_waited] adds that [startWg.Wait()] has
    returned, the goroutine of [svc.Start()] being finished. *)
Definition did_stop (t : Task) : Prop := 0 < stopCalls t.
Definition stop_and_waited (t : Task) : Prop :=
  stopCalls t = 1 ∧ gofn t = GoDone.

(** *** Notions for C1 *)

(** The claim as the specification words it: when [Wait] returns, every
    registered service has had [Stop] called and its [Start] has returned. *)
Definition Wait_implies_all_stopped : Prop :=
  ∀ tr lt lt' i t,
    run New tr = Some lt → step CallWait lt = Some lt' →
    tasks lt !! i = Some t →
    0 < stopCalls t ∧ startRet t ≠ None.

(** *** Notions for C3 *)

(** The claim as the specification words it, read in its favour: [Init] was
    called, the process has not been ended, and the state is looked at once
    every goroutine of the package has run as far as it can. *)
Definition failure_stops_all_others : Prop :=
  ∀ tr1 tr2 lt1 lt2 i j ti tj tj' e,
    run New tr1 = Some lt1 →
    tasks lt1 !! i = Some ti → startRet ti = Some (Some e) →
    i ≠ j → tasks lt1 !! j = Some tj → start_in_flight tj →
    run lt1 tr2 = Some lt2 →
    quiescent lt2 = true → exited lt2 = None → dispatcher lt2 ≠ DispOff →
    tasks lt2 !! j = Some tj' →
    stopCalls tj' = 1.

Definition conn_error : error := errors_New "dial tcp: connection refused".

(** Two services; [Start] of the first fails while the second is running. *)
Definition both_fail_prefix : list Label :=
  [CallInit; CallStart; CallStart; SupGo 0; SupGo 1; GoCall 0; GoCall 1;
   SvcStartReturns 0 (Some bind_error)].

(** Then [Start] of the second fails as well, before its supervising
    goroutine has seen the cancellation. *)
Definition both_fail_suffix : list Label :=
  [SvcStartReturns 1 (Some conn_error); SelectErr 0; SelectErr 1;
   SupForward 0; DispHandle; SupForward 1; DispHandle;
   SupExit 0; SupExit 1; GoExit 0; GoExit 1].

Definition both_fail_middle : Lifetime :=
  mkLifetime false 2 false
    [mkTask SupSelect (GoSendErr bind_error) 1 1 (Some (Some bind_error)) 0 None;
     mkTask SupSelect GoInStart 1 1 None 0 None]
    DispRecv (LisRecv 0%Z) None [] None.

Definition both_fail_final : Lifetime :=
  mkLifetime true 0 false
    [failed_task;
     mkTask SupDone GoDone 0 1 (Some (Some conn_error)) 0 (Some conn_error)]
    DispRecv (LisRecv 0%Z) None [bind_error; conn_error] None.

(** Two services; [Start] of the first fails, the second keeps running and
    is stopped through the cancellation the failure causes. *)
Definition one_fails_trace : list Label :=
  [CallInit; CallStart; CallStart; SupGo 0; SupGo 1; GoCall 0; GoCall 1;
   SvcStartReturns 0 (Some bind_error); SelectErr 0; SupForward 0;
   DispHandle; SupExit 0; GoExit 0; SelectDone 1; SvcStopReturns 1;
   SvcStartReturns 1 None; GoExit 1; SupWait 1; SupExit 1].

Definition one_fails_final : Lifetime :=
  mkLifetime true 0 false [failed_task; stopped_task]
    DispRecv (LisRecv 0%Z) None [bind_error] None.

(** *** The goroutines of the package always come to rest *)

(** An upper bound on the statements the goroutines of the package can
    still execute without a new action of the environment. *)
Definition sup_work (p : SupPc) : nat :=
  match p with
  | SupEntry => 5 | SupSelect => 4 | SupSendErr _ => 3 | SupInStop => 3
  | SupWaitStart => 2 | SupDefer => 1 | SupDone => 0
  end.
Definition go_work (p : GoPc) : nat :=
  match p with
  | GoNone => 3 | GoSpawned => 3 | GoInStart => 2 | GoSendErr _ => 2
  | GoDefer => 1 | GoDone => 0
  end.
Definition task_work (t : Task) : nat := sup_work (sup t) + go_work (gofn t).
Definition disp_work (p : DispPc) : nat :=
  match p with DispOff => 0 | DispRecv => 1 | DispGot _ => 2 | DispReturned => 0 end.
Definition lis_work (p : LisPc) : nat :=
  match p with LisSend _ _ => 2 | _ => 0 end.
Definition sig_work (c : option Signal) : nat :=
  match c with Some _ => 3 | None => 0 end.
Definition work (lt : Lifetime) : nat :=
  match exited lt with
  | Some _ => 0
  | None =>
      sum_list_with task_work (tasks lt) + disp_work (dispatcher lt) +
      lis_work (listener lt) + sig_work (signals lt)
  end.

(** *** Notions for C10 *)

(** The statements of the supervising goroutine of task [i]. *)
Definition sup_labels (i : nat) : list Label :=
  [SupGo i; SelectErr i; SelectDone i; SupWait i; SupForward i; SupExit i].

(** [Start] returned nil and the context is not cancelled. *)
Definition clean_trace : list Label :=
  [CallInit; CallStart; SupGo 0; GoCall 0; SvcStartReturns 0 None; GoExit 0].

Definition clean_task : Task := mkTask SupSelect GoDone 0 1 (Some None) 0 None.

Definition clean_state : Lifetime :=
  mkLifetime false 1 false [clean_task] DispRecv (LisRecv 0%Z) None [] None.

(** *** Notions for C4 *)

(** The supervising goroutine waits in [startWg.Wait()] for a goroutine that
    is itself blocked in [startErrs <- err]: the channel is unbuffered and
    its only receiver is the [select] the supervising goroutine has left. *)
Definition stuck (t : Task) : Prop :=
  sup t = SupWaitStart ∧ (∃ e, gofn t = GoSendErr e) ∧ startWg t ≠ 0.

(** [Shutdown] is called while the service starts; [Start] then fails. *)
Definition deadlock_trace : list Label :=
  [CallInit; CallStart; SupGo 0; GoCall 0; CallShutdown; SelectDone 0;
   SvcStartReturns 0 (Some bind_error); SvcStopReturns 0].

Definition deadlocked_task : Task :=
  mkTask SupWaitStart (GoSendErr bind_error) 1 1 (Some (Some bind_error)) 1 None.

(** *** Notions for C5 *)

(** The error the specification asks for on the [k]-th received signal
    (counted from 0): the graceful one if this is the first signal and it
    is an interrupt or a terminate, the immediate one on every repeat and
    on every kill. *)
Definition expected_event (k : nat) (sig : Signal) : error :=
  match k, sig with
  | 0, SIGINT | 0, SIGTERM => ErrShutdownSignalReceived
  | _, _ => ErrImmediateShutdownSignalReceived
  end.

(** In the running program [count] stays far away from the overflow: the
    dispatcher ends the process on the first immediate error it receives,
    so the listener never gets past its third signal. *)
Definition imm_pending (lt : Lifetime) : Prop :=
  dispatcher lt = DispGot ErrImmediateShutdownSignalReceived ∨
  exited lt ≠ None.

Definition lis_inv (lt : Lifetime) : Prop :=
  match listener lt with
  | LisOff => True
  | LisRecv count =>
      count = 0%Z ∨ count = 1%Z ∨ (count = 2%Z ∧ imm_pending lt)
  | LisSend count e =>
      count = 1%Z ∨
      (count = 2%Z ∧ e = ErrImmediateShutdownSignalReceived) ∨
      (count = 3%Z ∧ imm_pending lt)
  end.

(** The value of [count] at a program point of the listener. *)
Definition count_of (p : LisPc) : Z :=
  match p with LisOff => 0%Z | LisRecv count | LisSend count _ => count end.

(** What the listener does along a schedule: for every execution of
    [sig := <-signals; count++], the signal received, the new value of
    [count], and the error the listener goes on to send to [errCh]. *)
Fixpoint listener_log (lt : Lifetime) (tr : list Label)
  : list (Signal * Z * error) :=
  match tr with
  | [] => []
  | l :: tr =>
      match step l lt with
      | None => []
      | Some lt' =>
          match l, signals lt, listener lt' with
          | LisTake, Some sig, LisSend count err =>
              (sig, count, err) :: listener_log lt' tr
          | _, _, _ => listener_log lt' tr
          end
      end
  end.

(** Three signals: the third is received while the dispatcher is about to
    end the process. *)
Definition signals_trace : list Label :=
  [CallInit; OsSignal SIGTERM; LisTake; LisForward; DispHandle;
   OsSignal SIGINT; LisTake; LisForward; OsSignal SIGKILL; LisTake;
   DispHandle].

Definition signals_final : Lifetime :=
  mkLifetime true 0 false [] (DispGot ErrImmediateShutdownSignalReceived)
    (LisSend 3%Z ErrImmediateShutdownSignalReceived) None
    [ErrShutdownSignalReceived] (Some 1%Z).

(** *** Notions for C6 *)

(** A second interrupt arrives while a service is inside [Stop]. *)
Definition escalate_trace : list Label :=
  [CallInit; CallStart; SupGo 0; GoCall 0; OsSignal SIGINT; LisTake;
   LisForward; DispHandle; SelectDone 0; OsSignal SIGINT; LisTake;
   LisForward].

Definition stopping_task : Task := mkTask SupInStop GoInStart 1 1 None 1 None.

Definition escalate_state : Lifetime :=
  mkLifetime true 1 false [stopping_task]
    (DispGot ErrImmediateShutdownSignalReceived) (LisRecv 2%Z) None
    [ErrShutdownSignalReceived] None.

(** *** Notions for C7 *)

(** The values of the cancellation state along a schedule. *)
Fixpoint ctx_history (lt : Lifetime) (tr : list Label) : list bool :=
  ctxDone lt ::
  match tr with
  | [] => []
  | l :: tr =>
      match step l lt with
      | Some lt' => ctx_history lt' tr
      | None => []
      end
  end.

(** The number of changes from not cancelled to cancelled, and back. *)
Definition rise (a : bool) (h : list bool) : nat :=
  match h with b :: _ => if negb a && b then 1 else 0 | [] => 0 end.
Definition fall (a : bool) (h : list bool) : nat :=
  match h with b :: _ => if a && negb b then 1 else 0 | [] => 0 end.
Fixpoint triggers (h : list bool) : nat :=
  match h with
  | a :: h' => rise a h' + triggers h'
  | [] => 0
  end.
Fixpoint untriggers (h : list bool) : nat :=
  match h with
  | a :: h' => fall a h' + untriggers h'
  | [] => 0
  end.

(** *** Notions for C8 *)

(** The statements of the dispatcher. *)
Definition disp_labels : list Label := [DispClosed; DispHandle].

(** ** Notions for the further properties *)

(** Every supervising goroutine has returned. *)
Definition all_returned (lt : Lifetime) : Prop :=
  ∀ i t, tasks lt !! i = Some t → sup t = SupDone.

(** [Start] fails on a [Lifetime] that was never initialised. *)
Definition uninitialised_trace : list Label :=
  [CallStart; SupGo 0; GoCall 0; SvcStartReturns 0 (Some bind_error);
   SelectErr 0].

Definition uninitialised_task : Task :=
  mkTask (SupSendErr bind_error) GoDefer 1 1 (Some (Some bind_error)) 0 None.

Definition uninitialised_state : Lifetime :=
  mkLifetime false 1 false [uninitialised_task] DispOff LisOff None [] None.

(** What holds as long as [Init] has not been called. *)
Definition pre_init (lt : Lifetime) : Prop :=
  dispatcher lt = DispOff →
  logged lt = [] ∧ signals lt = None ∧
  Forall (λ t, forwarded t = None) (tasks lt).

(** The actions that do not ask for a shutdown: everything but a call of
    [Shutdown], the cancellation of the parent context, a signal, and a
    service's [Start] returning an error. *)
Definition quiet (l : Label) : bool :=
  match l with
  | CallShutdown | ParentCancel | OsSignal _ | SvcStartReturns _ (Some _) =>
      false
  | _ => true
  end.

(** The task of a service nobody has asked to stop. *)
Definition calm_task (t : Task) : Prop :=
  (sup t = SupEntry ∨ sup t = SupSelect) ∧ (∀ e, gofn t ≠ GoSendErr e) ∧
  stopCalls t = 0.

Definition calm (lt : Lifetime) : Prop :=
  ctxDone lt = false ∧ exited lt = None ∧ logged lt = [] ∧
  signals lt = None ∧
  (dispatcher lt = DispOff ∨ dispatcher lt = DispRecv) ∧
  (listener lt = LisOff ∨ ∃ count, listener lt = LisRecv count) ∧
  Forall calm_task (tasks lt).

(** Two services run and finish [Start] on their own; nobody asks for a
    shutdown. *)
Definition calm_trace : list Label :=
  [CallInit; CallStart; CallStart; SupGo 0; SupGo 1; GoCall 0; GoCall 1;
   SvcStartReturns 1 None; GoExit 1].

Definition calm_state : Lifetime :=
  mkLifetime false 2 false
    [mkTask SupSelect GoInStart 1 1 None 0 None;
     mkTask SupSelect GoDone 0 1 (Some None) 0 None]
    DispRecv (LisRecv 0%Z) None [] None.

(** [e] is the start-up error some supervising goroutine has sent to the
    error channel. *)
Definition from_service (lt : Lifetime) (e : error) : Prop :=
  ∃ i t, tasks lt !! i = Some t ∧ forwarded t = Some e ∧
         startRet t = Some (Some e).

(** How a step may change what the supervising goroutines have sent: what
    was sent stays, and a new entry comes with the hand-over of the error
    to the dispatcher. *)
Definition fwd_rel (ts ts' : list Task) (d d' : DispPc)
    (lg lg' : list error) : Prop :=
  (∀ i t e, ts !! i = Some t → forwarded t = Some e →
            ∃ t', ts' !! i = Some t' ∧ forwarded t' = Some e ∧
                  startRet t' = startRet t) ∧
  (∀ i t' e, ts' !! i = Some t' → forwarded t' = Some e →
             (∃ t, ts !! i = Some t ∧ forwarded t = Some e) ∨
             (d = DispRecv ∧ d' = DispGot e ∧ lg' = lg ∧
              startRet t' = Some (Some e))).

(** Where the errors in the log, with the dispatcher and with the listener
    come from, and where the errors sent by the supervising goroutines are. *)
Record log_inv (lt : Lifetime) : Prop := mkLogInv {
  log_cancelled : logged lt ≠ [] → ctxDone lt = true;
  log_origin :
    ∀ e, e ∈ logged lt →
         is_ErrImmediate e = false ∧
         (e = ErrShutdownSignalReceived ∨ from_service lt e);
  got_origin :
    ∀ e, dispatcher lt = DispGot e →
         e = ErrShutdownSignalReceived ∨
         e = ErrImmediateShutdownSignalReceived ∨ from_service lt e;
  send_origin :
    ∀ count e, listener lt = LisSend count e →
               e = ErrShutdownSignalReceived ∨
               e = ErrImmediateShutdownSignalReceived;
  forwarded_kept :
    ∀ i t e, tasks lt !! i = Some t → forwarded t = Some e →
             e ∈ logged lt ∨ dispatcher lt = DispGot e ∨ exited lt ≠ None
}.

(** The steps by which a running service is stopped after the context was
    cancelled, [Stop] returning before [Start] does, or after. *)
Definition stop_then_return (i : nat) : list Label :=
  [SelectDone i; SvcStopReturns i; SvcStartReturns i None; GoExit i;
   SupWait i; SupExit i].
Definition return_then_stop (i : nat) : list Label :=
  [SelectDone i; SvcStartReturns i None; GoExit i; SvcStopReturns i;
   SupWait i; SupExit i].

(** The state in which task [i] is [u]. *)
Definition with_task (i : nat) (u : Task) (lt : Lifetime) : Lifetime :=
  set_tasks (<[i := u]> (tasks lt)) lt.

(** The state after the task [i] has finished through the cancellation. *)
Definition after_clean_stop (i : nat) (lt : Lifetime) : Lifetime :=
  set_tasks (<[i := stopped_task]> (tasks lt))
    (set_serviceWg (pred (serviceWg lt)) lt).

(** Service a runs, [Shutdown] has been called. *)
Definition cancelled_trace : list Label :=
  [CallInit; CallStart; SupGo 0; GoCall 0; CallShutdown].

Definition running_task : Task := mkTask SupSelect GoInStart 1 1 None 0 None.

Definition cancelled_state : Lifetime :=
  mkLifetime true 1 false [running_task] DispRecv (LisRecv 0%Z) None [] None.

(** A service is registered with a [Lifetime] that is already shut down. *)
Definition late_start (lt : Lifetime) : list Label :=
  [CallStart; SupGo (length (tasks lt)); SelectDone (length (tasks lt))].

Definition stopped_before_started : Task :=
  mkTask SupInStop GoSpawned 1 0 None 1 None.

(** The signals the operating system delivers along a schedule, the signals
    the listener takes from its channel, and the content of the channel's
    one-slot buffer. *)
Definition delivered (tr : list Label) : list Signal :=
  omap (λ l, match l with OsSignal sig => Some sig | _ => None end) tr.
Definition received (lt : Lifetime) (tr : list Label) : list Signal :=
  (λ x, x.1.1) <$> listener_log lt tr.
Definition buffered (lt : Lifetime) : list Signal :=
  match signals lt with Some sig => [sig] | None => [] end.

(** Three interrupts in a row, the listener being slow: the third finds the
    buffer full. *)
Definition burst_trace : list Label :=
  [CallInit; OsSignal SIGINT; LisTake; OsSignal SIGINT; OsSignal SIGINT;
   LisForward; DispHandle; LisTake].

Definition burst_state : Lifetime :=
  mkLifetime true 0 false [] DispRecv
    (LisSend 2%Z ErrImmediateShutdownSignalReceived) None
    [ErrShutdownSignalReceived] None.

(** The graceful error of the first signal has reached the dispatcher: it
    is with the dispatcher, or it is logged and the context cancelled. *)
Definition graceful_seen (lt : Lifetime) : Prop :=
  dispatcher lt = DispGot ErrShutdownSignalReceived ∨
  (ErrShutdownSignalReceived ∈ logged lt ∧ ctxDone lt = true).

(** Once the listener is back at its receive after a signal, the error of
    that signal has been handed over. *)
Definition handed_over (lt : Lifetime) : Prop :=
  match listener lt with
  | LisRecv count => (1 ≤ count)%Z → graceful_seen lt ∨ imm_pending lt
  | _ => True
  end.


(** The steps from [Start] of service [i] returning the error [e] to the
    dispatcher having acted on it, and on to the end of both goroutines. *)
Definition failure_report (i : nat) (e : error) : list Label :=
  [SvcStartReturns i (Some e); SelectErr i; SupForward i; DispHandle].
Definition failure_path (i : nat) (e : error) : list Label :=
  failure_report i e ++ [SupExit i; GoExit i].

(** The task of a service whose [Start] returned [e], at its end. *)
Definition failed_with (e : error) : Task :=
  mkTask SupDone GoDone 0 1 (Some (Some e)) 0 (Some e).

(** Service a runs; nothing has happened yet. *)
Definition idle_trace : list Label := [CallInit; CallStart; SupGo 0; GoCall 0].

Definition idle_state : Lifetime :=
  mkLifetime false 1 false [running_task] DispRecv (LisRecv 0%Z) None [] None.

(** * Properties *)

(** ** Lemmas on the task table *)

Lemma sum_list_with_insert (f : Task → nat) (ts : list Task) i t t' :
  ts !! i = Some t →
  sum_list_with f (<[i := t']> ts) + f t = sum_list_with f ts + f t'.
Proof.
  revert i. induction ts as [|x ts IH]; intros [|i] Hi; simplify_eq/=.
  - lia.
  - specialize (IH _ Hi). lia.
Qed.

Lemma task_inv_mono (t : Task) : task_inv false t → task_inv true t.
Proof.
  unfold task_inv, sup_ok. intros [Hg Hs]. split; [done|].
  destruct (sup t); intuition discriminate.
Qed.

Lemma tasks_inv_cancel b (ts : list Task) :
  Forall (task_inv b) ts → Forall (task_inv true) ts.
Proof.
  destruct b; [done|]. intros H.
  eapply Forall_impl; [exact H|apply task_inv_mono].
Qed.

Lemma Exists_insert_inv (P : Task → Prop) (ts : list Task) i t :
  Exists P (<[i := t]> ts) → P t ∨ Exists P ts.
Proof.
  revert i. induction ts as [|x ts IH]; intros [|i] HE; simpl in *.
  - by right.
  - by right.
  - apply Exists_cons in HE as [?|?]; [by left|].
    right. by apply Exists_cons_tl.
  - apply Exists_cons in HE as [?|HE].
    + right. by apply Exists_cons_hd.
    + destruct (IH _ HE); [by left|]. right. by apply Exists_cons_tl.
Qed.

(** What one statement of a task does to the task's invariant. *)
Lemma task_step_inv l b (t t' : Task) :
  task_step l b t = Some t' → task_inv b t → task_inv b t'.
Proof.
  unfold task_step, task_inv, go_ok, sup_ok, go_past_send.
  destruct t as [s g w sc sr pc fw]; simpl.
  intros Hstep [Hg Hs].
  destruct l; try done; destruct s, g; simplify_eq/=;
    repeat case_match; simplify_eq/=; naive_solver.
Qed.

Lemma task_step_counted l b (t t' : Task) :
  task_step l b t = Some t' → counted t' = counted t.
Proof.
  unfold task_step, counted.
  destruct t as [s g w sc sr pc fw]; simpl.
  destruct l; try done; destruct s, g; intros; simplify_eq/=;
    repeat case_match; simplify_eq/=; done.
Qed.

Lemma task_step_forwarded l b (t t' : Task) :
  task_step l b t = Some t' → forwarded t' = forwarded t.
Proof.
  unfold task_step.
  destruct t as [s g w sc sr pc fw]; simpl.
  destruct l; try done; destruct s, g; intros; simplify_eq/=;
    repeat case_match; simplify_eq/=; done.
Qed.

(** ** The invariant holds in every reachable state *)

Lemma inv_New : inv New.
Proof.
  split; simpl; try done.
  - intros HE. by apply Exists_nil in HE.
Qed.

Ltac open_step H :=
  unfold step in H;
  match type of H with
  | match exited ?lt with _ => _ end = _ =>
      let E := fresh "Hlive" in destruct (exited lt) eqn:E; [done|]
  end;
  unfold live_step, errCh_send, handleErrors_iter, Shutdown, cancelFunc,
    os_Exit, panic, Start, Init, Wait_returns, wg_Done in H.

Lemma Exists_insert_fwd (ts : list Task) i t t' :
  ts !! i = Some t → forwarded t' = forwarded t →
  Exists has_forwarded (<[i := t']> ts) → Exists has_forwarded ts.
Proof.
  intros Hi Hf [HE|HE]%Exists_insert_inv; [|done].
  apply Exists_exists. exists t. split; [by eapply list_elem_of_lookup_2|].
  unfold has_forwarded in *. by rewrite <- Hf.
Qed.

Lemma inv_task_update lt i t t' :
  inv lt → tasks lt !! i = Some t →
  task_inv (ctxDone lt) t' → counted t' = counted t →
  forwarded t' = forwarded t →
  inv (set_tasks (<[i := t']> (tasks lt)) lt).
Proof.
  intros [Hts Hwg Hopen Hloop Hinit Hfwd] Hi Ht' Hc Hf.
  split; simpl; try done.
  - by apply Forall_insert.
  - pose proof (sum_list_with_insert counted _ _ _ t' Hi). lia.
  - intros HE. apply Hfwd. by eapply Exists_insert_fwd.
Qed.

Lemma inv_cancel lt : inv lt → inv (set_ctxDone true lt).
Proof.
  intros [Hts Hwg Hopen Hloop Hinit Hfwd].
  split; simpl; try done; eauto using tasks_inv_cancel.
Qed.

Lemma inv_exit lt c : inv lt → inv (set_exited (Some c) lt).
Proof.
  intros [Hts Hwg Hopen Hloop Hinit Hfwd].
  split; simpl; try done. intros _. right. by right.
Qed.

Local Arguments task_step : simpl never.

Lemma step_inv l lt lt' : step l lt = Some lt' → inv lt → inv lt'.
Proof.
  intros Hstep Hinv. open_step Hstep.
  pose proof Hinv as [Hts Hwg Hopen Hloop Hinit Hfwd].
  rewrite Hopen in Hstep.
  destruct l; simpl in Hstep;
    try (destruct (tasks lt !! i) as [t|] eqn:Ht; simpl in Hstep; [|done];
         pose proof (Forall_lookup_1 _ _ _ _ Hts Ht) as Hti).
  - (* CallInit *)
    destruct (dispatcher lt) eqn:Hd, (listener lt) eqn:Hl; simplify_eq.
    split; simpl; try done. intros HE. destruct (Hfwd HE) as [?|[[? ?]|?]]; auto.
  - (* CallStart *)
    simplify_eq. split; simpl; try done.
    + apply Forall_app. split; [done|]. apply Forall_singleton.
      unfold task_inv, go_ok, sup_ok. simpl. done.
    + rewrite sum_list_with_app. simpl. lia.
    + intros [HE|HE]%Exists_app; [by auto|].
      apply Exists_cons in HE as [HE|HE]; [done|]. by apply Exists_nil in HE.
  - (* CallShutdown *)
    destruct (ctxDone lt) eqn:Hc; simplify_eq; [done|]. by apply inv_cancel.
  - (* CallWait *)
    case_match; by simplify_eq.
  - (* ParentCancel *)
    simplify_eq. by apply inv_cancel.
  - (* OsSignal *)
    destruct (listener lt) eqn:Hl; [done| |];
      (destruct (signals lt); simplify_eq; [done|];
       split; simpl; try done; by rewrite Hl).
  - (* SvcStartReturns *)
    destruct (task_step _ _ t) as [t'|] eqn:Hs; simplify_eq/=.
    eauto using inv_task_update, task_step_inv, task_step_counted,
      task_step_forwarded.
  - destruct (task_step _ _ t) as [t'|] eqn:Hs; simplify_eq/=.
    eauto using inv_task_update, task_step_inv, task_step_counted,
      task_step_forwarded.
  - destruct (task_step _ _ t) as [t'|] eqn:Hs; simplify_eq/=.
    eauto using inv_task_update, task_step_inv, task_step_counted,
      task_step_forwarded.
  - destruct (task_step _ _ t) as [t'|] eqn:Hs; simplify_eq/=.
    eauto using inv_task_update, task_step_inv, task_step_counted,
      task_step_forwarded.
  - (* GoExit *)
    destruct (gofn t) eqn:Hg; try done.
    destruct (startWg t) as [|n] eqn:Hw; simplify_eq/=.
    { by apply inv_exit. }
    apply inv_task_update with t; try done.
    destruct Hti as [Hgo Hsup]. destruct t as [s g w sc sr pc fw].
    unfold task_inv, go_ok, sup_ok, go_past_send in *. simplify_eq/=.
    destruct s; naive_solver.
  - destruct (task_step _ _ t) as [t'|] eqn:Hs; simplify_eq/=.
    eauto using inv_task_update, task_step_inv, task_step_counted,
      task_step_forwarded.
  - destruct (task_step _ _ t) as [t'|] eqn:Hs; simplify_eq/=.
    eauto using inv_task_update, task_step_inv, task_step_counted,
      task_step_forwarded.
  - destruct (task_step _ _ t) as [t'|] eqn:Hs; simplify_eq/=.
    eauto using inv_task_update, task_step_inv, task_step_counted,
      task_step_forwarded.
  - (* SupForward *)
    destruct (sup t) eqn:Hs; try done.
    destruct (dispatcher lt) eqn:Hd; simplify_eq/=.
    split; simpl; try done.
    + apply Forall_insert; [done|].
      destruct Hti as [Hgo Hsup]. destruct t as [s g w sc sr pc fw].
      unfold task_inv, go_ok, sup_ok, go_past_send in *. simplify_eq/=.
      naive_solver.
    + pose proof (sum_list_with_insert counted _ _ _
        (set_sup SupDefer (set_forwarded (Some e) t)) Ht) as Hsum.
      assert (counted t = 1) as Hc by (unfold counted; by rewrite Hs).
      rewrite Hc in Hsum. change (counted (set_sup SupDefer _)) with 1 in Hsum.
      lia.
    + split; [done|]. intros Hl. by apply Hinit in Hl.
    + intros _. right. left. eauto.
  - (* SupExit *)
    destruct (sup t) eqn:Hs; try done.
    destruct (serviceWg lt) as [|n] eqn:Hn; simplify_eq/=.
    { by apply inv_exit. }
    split; simpl; try done.
    + apply Forall_insert; [done|].
      destruct Hti as [Hgo Hsup]. destruct t as [s g w sc sr pc fw].
      unfold task_inv, go_ok, sup_ok, go_past_send in *. simplify_eq/=.
      done.
    + pose proof (sum_list_with_insert counted _ _ _ (set_sup SupDone t) Ht)
        as Hsum.
      assert (counted t = 1) as Hc by (unfold counted; by rewrite Hs).
      rewrite Hc in Hsum. change (counted (set_sup SupDone _)) with 0 in Hsum.
      lia.
    + intros HE. apply Hfwd.
      eapply Exists_insert_fwd; [exact Ht| |exact HE]. done.
  - (* DispClosed *)
    destruct (dispatcher lt); done.
  - (* DispHandle *)
    destruct (dispatcher lt) eqn:Hd; try done. simplify_eq.
    destruct (is_ErrImmediate e).
    { by apply inv_exit. }
    simpl. destruct (ctxDone lt) eqn:Hc; split; simpl; try done;
      eauto using tasks_inv_cancel.
    + by rewrite Hc.
    + split; [done|]. intros Hl. by apply Hinit in Hl.
    + split; [done|]. intros Hl. by apply Hinit in Hl.
  - (* LisTake *)
    destruct (listener lt) eqn:Hl; try done.
    destruct (signals lt) eqn:Hsig; try done. simplify_eq/=.
    split; simpl; try done.
    split; [intros Hd; by apply Hinit in Hd|done].
  - (* LisForward *)
    destruct (listener lt) eqn:Hl; try done.
    destruct (dispatcher lt) eqn:Hd; simplify_eq/=.
    split; simpl; try done. intros _. right. left. eauto.
Qed.

Lemma run_inv tr : ∀ lt lt', run lt tr = Some lt' → inv lt → inv lt'.
Proof.
  induction tr as [|l tr IH]; intros lt lt' Hrun Hinv; simplify_eq/=; [done|].
  destruct (step l lt) as [lt1|] eqn:Hstep; simplify_eq/=.
  eauto using step_inv.
Qed.

Lemma reachable_inv lt : reachable lt → inv lt.
Proof. intros [tr Hrun]. eapply run_inv; [exact Hrun|apply inv_New]. Qed.

Lemma run_app tr1 tr2 lt :
  run lt (tr1 ++ tr2) = lt' ← run lt tr1; run lt' tr2.
Proof.
  revert lt. induction tr1 as [|l tr1 IH]; intros lt; simpl; [done|].
  destruct (step l lt); simpl; [apply IH|done].
Qed.

Lemma reachable_task lt i t :
  reachable lt → tasks lt !! i = Some t → task_inv (ctxDone lt) t.
Proof.
  intros Hr Hi. apply reachable_inv in Hr as [Hts _ _ _ _ _].
  by eapply Forall_lookup_1.
Qed.

(** A task whose supervising goroutine has not returned keeps the counter of
    [serviceWg] positive. *)
Lemma sum_list_with_lookup_le (f : Task → nat) (ts : list Task) i t :
  ts !! i = Some t → f t ≤ sum_list_with f ts.
Proof.
  revert i. induction ts as [|x ts IH]; intros [|i] Hi; simplify_eq/=.
  - lia.
  - specialize (IH _ Hi). lia.
Qed.

Lemma counted_le_sum (ts : list Task) i t :
  ts !! i = Some t → counted t ≤ sum_list_with counted ts.
Proof. apply sum_list_with_lookup_le. Qed.

Lemma sum_counted_0 (ts : list Task) i t :
  sum_list_with counted ts = 0 → ts !! i = Some t → sup t = SupDone.
Proof.
  intros H0 Hi. pose proof (counted_le_sum _ _ _ Hi) as Hle.
  destruct t as [[] g w sc sr pc fw]; simpl in *;
    first [done | change (counted _) with 1 in Hle; lia].
Qed.

(** ** Scenarios *)

Lemma example_run : run New example_trace = Some example_final.
Proof. reflexivity. Qed.

Lemma failing_run : run New failing_trace = Some failing_final.
Proof. reflexivity. Qed.

(** ** Quiescent states *)

Lemma step_no_task l lt i :
  index_of l = Some i → tasks lt !! i = None → step l lt = None.
Proof.
  intros Hl Hi. unfold step. destruct (exited lt); [done|].
  destruct l; simplify_eq/=; by rewrite Hi.
Qed.

Lemma internal_labels_complete l n :
  internal l = true →
  (∀ i, index_of l = Some i → i < n) →
  l ∈ internal_labels n.
Proof.
  intros Hint Hidx. unfold internal_labels.
  destruct l; simplify_eq/=;
    try (repeat first [apply list_elem_of_here | apply list_elem_of_further]; fail).
  all: do 4 apply list_elem_of_further.
  all: apply list_elem_of_In, in_flat_map; exists i.
  all: split; [apply in_seq; specialize (Hidx i eq_refl); lia|].
  all: simpl; tauto.
Qed.

Lemma quiescent_blocked lt l :
  quiescent lt = true → internal l = true → step l lt = None.
Proof.
  intros Hq Hint.
  destruct (index_of l) as [i|] eqn:Hidx.
  - destruct (tasks lt !! i) as [t|] eqn:Hi.
    + unfold quiescent in Hq. rewrite forallb_forall in Hq.
      specialize (Hq l). destruct (step l lt); [|done].
      assert (false = true); [|done]. apply Hq.
      apply list_elem_of_In, internal_labels_complete; [done|].
      intros j Hj. simplify_eq. by eapply lookup_lt_Some.
    + by eapply step_no_task.
  - unfold quiescent in Hq. rewrite forallb_forall in Hq.
    specialize (Hq l). destruct (step l lt); [|done].
    assert (false = true); [|done]. apply Hq.
    apply list_elem_of_In, internal_labels_complete; [done|].
    intros j Hj. congruence.
Qed.

(** Where the goroutines of a task can be when nothing moves while the
    dispatcher sits at its receive. *)
Lemma quiescent_task lt i t :
  quiescent lt = true → exited lt = None → errClosed lt = false →
  dispatcher lt = DispRecv → tasks lt !! i = Some t →
  sup t ≠ SupEntry ∧ sup t ≠ SupDefer ∧ (∀ e, sup t ≠ SupSendErr e) ∧
  gofn t ≠ GoSpawned ∧ gofn t ≠ GoDefer ∧
  (sup t = SupSelect → ctxDone lt = false ∧ ∀ e, gofn t ≠ GoSendErr e).
Proof.
  intros Hq Hlive Hopen Hd Hi.
  pose proof (quiescent_blocked lt (SupGo i) Hq eq_refl) as H1.
  pose proof (quiescent_blocked lt (SupExit i) Hq eq_refl) as H2.
  pose proof (quiescent_blocked lt (SupForward i) Hq eq_refl) as H3.
  pose proof (quiescent_blocked lt (GoCall i) Hq eq_refl) as H4.
  pose proof (quiescent_blocked lt (GoExit i) Hq eq_refl) as H5.
  pose proof (quiescent_blocked lt (SelectDone i) Hq eq_refl) as H6.
  pose proof (quiescent_blocked lt (SelectErr i) Hq eq_refl) as H7.
  unfold step, live_step, errCh_send, task_step in *.
  rewrite Hlive, Hi in *. rewrite ?Hopen, ?Hd in *. simpl in *.
  destruct t as [s g w sc sr pc fw]; simpl in *.
  repeat split; try (intros ->; simplify_eq/=; repeat case_match; done).
  - intros e ->. simplify_eq/=.
  - simplify_eq/=. by destruct (ctxDone lt).
  - intros e ->. simplify_eq/=.
Qed.

Lemma quiescent_dispatcher lt :
  inv lt → quiescent lt = true → exited lt = None →
  dispatcher lt ≠ DispOff → dispatcher lt = DispRecv.
Proof.
  intros [_ _ _ Hloop _ _] Hq Hlive Hon.
  pose proof (quiescent_blocked lt DispHandle Hq eq_refl) as H1.
  unfold step, live_step in H1. rewrite Hlive in H1.
  destruct (dispatcher lt); done.
Qed.

(** ** The goroutines of the package always come to rest *)

Lemma internal_step_work l lt lt' :
  inv lt → internal l = true → step l lt = Some lt' → work lt' < work lt.
Proof.
  intros Hinv Hint Hstep. open_step Hstep.
  pose proof Hinv as [Hts _ Hopen _ _ _].
  rewrite Hopen in Hstep. unfold work. rewrite Hlive.
  destruct l; try done; simpl in Hstep;
    try (destruct (tasks lt !! i) as [t|] eqn:Ht; simpl in Hstep; [|done];
         pose proof (Forall_lookup_1 _ _ _ _ Hts Ht) as [Hg Hs];
         unfold go_ok, sup_ok, go_past_send in Hg, Hs;
         unfold task_step in Hstep;
         destruct t as [s g w sc sr pc fw]; simpl in * ).
  all: repeat case_match; simplify_eq/=; try lia.
  all: try match goal with
       | Ht : tasks ?lt !! ?i = Some ?t
         |- context [<[?i := ?t']> (tasks ?lt)] =>
           pose proof (sum_list_with_insert task_work _ _ _ t' Ht) as Hsum;
           unfold task_work in Hsum |- *; simpl in Hsum |- *
       end.
  all: try lia.
  all: try (destruct Hs as [Hs _]; discriminate Hs).
  all: pose proof (sum_list_with_lookup_le task_work _ _ _ Ht) as Hle;
    unfold task_work in Hle |- *; simpl in Hle; lia.
Qed.

(** From a reachable state, the goroutines of the package execute at most
    [work lt] statements before all of them are blocked or finished,
    whatever the scheduler does. *)
Lemma internal_run_bounded tr :
  ∀ lt lt', inv lt → Forall (λ l, internal l = true) tr →
  run lt tr = Some lt' → length tr + work lt' ≤ work lt.
Proof.
  induction tr as [|l tr IH]; intros lt lt' Hinv Hall Hrun; simplify_eq/=.
  - lia.
  - apply Forall_cons in Hall as [Hl Hall].
    destruct (step l lt) as [lt1|] eqn:Hstep; simplify_eq/=.
    pose proof (internal_step_work _ _ _ Hinv Hl Hstep).
    pose proof (IH _ _ (step_inv _ _ _ Hstep Hinv) Hall Hrun). lia.
Qed.

(** ** The claims *)

(** *** C2 *)

(** C2. In every reachable state and for every registered service: the
    supervising goroutine never does both of forwarding the start-up error
    and calling Stop, and once it has returned it has done exactly one of
    forwarding the error and calling Stop followed by waiting for the
    goroutine of Start; Stop has been called only if the context is
    cancelled; the supervising goroutine has not returned, and its
    decrement of the completion counter has not happened (the counter is
    positive), while the call of Start is in flight. *)
Theorem C2_supervisor_exactly_one tr lt i t :
  run New tr = Some lt → tasks lt !! i = Some t →
  ¬ (did_forward t ∧ did_stop t) ∧
  (sup t = SupDone →
   (did_forward t ∧ ¬ did_stop t) ∨ (stop_and_waited t ∧ ¬ did_forward t)) ∧
  (did_stop t → ctxDone lt = true) ∧
  (start_in_flight t → sup t ≠ SupDone ∧ sup t ≠ SupDefer ∧ 0 < serviceWg lt).
Proof.
  intros Hrun Hi. assert (reachable lt) as Hr by (by exists tr).
  pose proof (reachable_task _ _ _ Hr Hi) as [Hg Hs].
  pose proof (reachable_inv _ Hr) as [_ Hwg _ _ _ _].
  pose proof (counted_le_sum _ _ _ Hi) as Hle. rewrite <- Hwg in Hle.
  unfold did_forward, did_stop, stop_and_waited, start_in_flight.
  unfold go_ok, sup_ok, go_past_send in *.
  destruct t as [s g w sc sr pc fw]; simpl in *.
  split; [|split; [|split]].
  - destruct s; naive_solver lia.
  - intros ->. destruct Hs as [(?&?&e&?&?)|(?&?&?&?&?)]; simplify_eq.
    + left. split; [done|lia].
    + right. split; [done|]. by intros ?.
  - destruct s; naive_solver lia.
  - intros ->. destruct s; try naive_solver.
    all: split; [done|]; split; [done|].
    all: change (counted _) with 1 in Hle; lia.
Qed.

Lemma C2_witness :
  run New example_trace = Some example_final ∧
  example_final.(tasks) !! 1 = Some stopped_task ∧
  ¬ (did_forward stopped_task ∧ did_stop stopped_task) ∧
  (sup stopped_task = SupDone →
   (did_forward stopped_task ∧ ¬ did_stop stopped_task) ∨
   (stop_and_waited stopped_task ∧ ¬ did_forward stopped_task)) ∧
  (did_stop stopped_task → ctxDone example_final = true) ∧
  (start_in_flight stopped_task →
   sup stopped_task ≠ SupDone ∧ sup stopped_task ≠ SupDefer ∧
   0 < serviceWg example_final).
Proof.
  split; [reflexivity|]. split; [reflexivity|].
  apply (C2_supervisor_exactly_one example_trace example_final 1 stopped_task);
    reflexivity.
Defined.

(** *** C1 *)

(** C1, as stated, fails: the service of [failing_trace] returns an error
    from [Start]; its supervising goroutine forwards the error and returns
    without calling [Stop], and [Wait] returns. *)
Lemma C1_counterexample : ¬ Wait_implies_all_stopped.
Proof.
  intros H.
  destruct (H failing_trace failing_final failing_final 0 failed_task)
    as [Hstop _]; try reflexivity.
  simpl in Hstop. lia.
Qed.

(** C1, amended. When [Wait] returns, every registered service's [Start]
    has been called once and has returned, and either [Stop] was called on
    it exactly once (the context being cancelled, and [Start] having
    returned nil), or [Stop] was not called and [Start] returned an error
    that the supervising goroutine sent to the error channel. *)
Theorem C1_wait_after_services_finished tr lt lt' i t :
  run New tr = Some lt → step CallWait lt = Some lt' →
  tasks lt !! i = Some t →
  sup t = SupDone ∧ startCalls t = 1 ∧
  ((stopCalls t = 1 ∧ ctxDone lt = true ∧ startRet t = Some None ∧
    forwarded t = None) ∨
   (stopCalls t = 0 ∧
    ∃ e, startRet t = Some (Some e) ∧ forwarded t = Some e)).
Proof.
  intros Hrun Hwait Hi. assert (reachable lt) as Hr by (by exists tr).
  pose proof (reachable_task _ _ _ Hr Hi) as [Hg Hs].
  pose proof (reachable_inv _ Hr) as [_ Hwg _ _ _ _].
  open_step Hwait. destruct (serviceWg lt =? 0) eqn:H0; [|done].
  apply Nat.eqb_eq in H0. rewrite Hwg in H0.
  pose proof (sum_counted_0 _ _ _ H0 Hi) as Hdone.
  unfold go_ok, sup_ok, go_past_send in *.
  destruct t as [s g w sc sr pc fw]; simplify_eq/=.
  split; [done|].
  destruct Hs as [([->| ->]&?&e&?&?)|(->&?&?&?&?)]; naive_solver.
Qed.

Lemma C1_witness :
  run New failing_trace = Some failing_final ∧
  step CallWait failing_final = Some failing_final ∧
  failing_final.(tasks) !! 0 = Some failed_task ∧
  sup failed_task = SupDone ∧ startCalls failed_task = 1 ∧
  ((stopCalls failed_task = 1 ∧ ctxDone failing_final = true ∧
    startRet failed_task = Some None ∧ forwarded failed_task = None) ∨
   (stopCalls failed_task = 0 ∧
    ∃ e, startRet failed_task = Some (Some e) ∧
         forwarded failed_task = Some e)).
Proof.
  split; [reflexivity|]. split; [reflexivity|]. split; [reflexivity|].
  apply (C1_wait_after_services_finished failing_trace failing_final
           failing_final 0 failed_task); reflexivity.
Defined.

(** *** C3 *)

(** C3, as stated, fails: the second service is running when the first
    one's [Start] fails, then fails itself; neither is ever stopped. *)
Lemma C3_counterexample : ¬ failure_stops_all_others.
Proof.
  intros H.
  assert (stopCalls
            (mkTask SupDone GoDone 0 1 (Some (Some conn_error)) 0
               (Some conn_error)) = 1) as Habs; [|discriminate Habs].
  apply (H both_fail_prefix both_fail_suffix both_fail_middle
           both_fail_final 0 1
           (mkTask SupSelect (GoSendErr bind_error) 1 1
              (Some (Some bind_error)) 0 None)
           (mkTask SupSelect GoInStart 1 1 None 0 None)
           _ bind_error); try reflexivity; discriminate.
Qed.

(** Once some service's [Start] has returned an error and nothing moves
    any more, the context is cancelled. *)
Lemma quiescent_failure_cancels lt i t e :
  inv lt → quiescent lt = true → exited lt = None →
  dispatcher lt ≠ DispOff →
  tasks lt !! i = Some t → startRet t = Some (Some e) →
  ctxDone lt = true.
Proof.
  intros Hinv Hq Hlive Hon Hi Hret.
  pose proof (quiescent_dispatcher _ Hinv Hq Hlive Hon) as Hd.
  pose proof Hinv as [Hts _ Hopen _ _ Hfwd].
  pose proof (Forall_lookup_1 _ _ _ _ Hts Hi) as [Hg Hs].
  pose proof (quiescent_task _ _ _ Hq Hlive Hopen Hd Hi)
    as (Q1 & Q2 & Q3 & Q4 & Q5 & Q6).
  unfold go_ok, sup_ok, go_past_send in *.
  destruct (sup t) eqn:Hsup; try done.
  - destruct Q6 as [_ Q6]; [done|].
    destruct Hs as (? & ? & ? & Hpast).
    destruct (gofn t) eqn:Hgo; try naive_solver.
  - by specialize (Q3 e0).
  - naive_solver.
  - naive_solver.
  - destruct Hs as [(_ & _ & e' & _ & Hf)|(_ & _ & _ & ? & _)]; [|done].
    destruct Hfwd as [?|[[e0 He0]|?]]; try done.
    + apply Exists_exists. exists t. split; [by eapply list_elem_of_lookup_2|].
      unfold has_forwarded. by rewrite Hf.
    + by rewrite Hd in He0.
Qed.

(** C3, amended. No service ever has [Stop] called more than once.  If
    [Init] was called, the process has not been ended, some service's
    [Start] has returned an error and every goroutine of the package has
    run as far as it can, then the context is cancelled and every
    registered service has had [Stop] called exactly once, except the
    services whose own [Start] returned an error that their supervising
    goroutine sent to the error channel: on those [Stop] is not called.
    The goroutines of the package do run as far as they can: from any
    reachable state they execute at most [work lt] statements before all
    of them are blocked or finished. *)
Theorem C3_failure_stops_the_others tr lt :
  run New tr = Some lt →
  (∀ j u, tasks lt !! j = Some u → stopCalls u ≤ 1) ∧
  (∀ tr' lt', Forall (λ l, internal l = true) tr' → run lt tr' = Some lt' →
              length tr' ≤ work lt) ∧
  (quiescent lt = true → exited lt = None → dispatcher lt ≠ DispOff →
   (∃ i t e, tasks lt !! i = Some t ∧ startRet t = Some (Some e)) →
   ctxDone lt = true ∧
   ∀ j u, tasks lt !! j = Some u →
     (stopCalls u = 1 ∧ forwarded u = None) ∨
     (stopCalls u = 0 ∧
      ∃ e', startRet u = Some (Some e') ∧ forwarded u = Some e')).
Proof.
  intros Hrun. assert (reachable lt) as Hr by (by exists tr).
  pose proof (reachable_inv _ Hr) as Hinv.
  pose proof Hinv as [Hts _ Hopen _ _ _].
  split; [|split].
  - intros j u Hj.
    pose proof (Forall_lookup_1 _ _ _ _ Hts Hj) as [Hg Hs].
    unfold sup_ok in Hs. destruct (sup u); naive_solver lia.
  - intros tr' lt' Hall Hrun'.
    pose proof (internal_run_bounded _ _ _ Hinv Hall Hrun'). lia.
  - intros Hq Hlive Hon (i & t & e & Hi & Hret).
    pose proof (quiescent_failure_cancels _ _ _ _ Hinv Hq Hlive Hon Hi Hret)
      as Hc.
    split; [done|]. intros j u Hj.
    pose proof (quiescent_dispatcher _ Hinv Hq Hlive Hon) as Hd.
    pose proof (Forall_lookup_1 _ _ _ _ Hts Hj) as [Hg Hs].
    pose proof (quiescent_task _ _ _ Hq Hlive Hopen Hd Hj)
      as (Q1 & Q2 & Q3 & Q4 & Q5 & Q6).
    unfold sup_ok in Hs. destruct (sup u) eqn:Hsup; try done.
    + destruct Q6 as [Q6 _]; [done|]. congruence.
    + by specialize (Q3 e0).
    + left. naive_solver.
    + left. naive_solver.
    + naive_solver.
Qed.

Lemma C3_witness :
  run New one_fails_trace = Some one_fails_final ∧
  quiescent one_fails_final = true ∧
  (∀ j u, tasks one_fails_final !! j = Some u → stopCalls u ≤ 1) ∧
  ctxDone one_fails_final = true ∧
  ∀ j u, tasks one_fails_final !! j = Some u →
    (stopCalls u = 1 ∧ forwarded u = None) ∨
    (stopCalls u = 0 ∧
     ∃ e', startRet u = Some (Some e') ∧ forwarded u = Some e').
Proof.
  split; [reflexivity|]. split; [reflexivity|].
  destruct (C3_failure_stops_the_others one_fails_trace one_fails_final)
    as (Hle & _ & Hq); [reflexivity|].
  split; [exact Hle|].
  apply Hq; [reflexivity|reflexivity|discriminate|].
  exists 0, failed_task, bind_error. split; reflexivity.
Defined.

(** *** C10 *)

(** C10. For a registered service whose [Start] has returned nil: as long
    as the context is not cancelled, its supervising goroutine sits in the
    [select] and cannot move, [Stop] has not been called, the counter of
    [serviceWg] is positive and [Wait] cannot return; once the context is
    cancelled the [select] can only take the cancellation case, which calls
    [Stop] although [Start] has returned; and the supervising goroutine
    never returns without having called [Stop]. *)
Theorem C10_clean_return_keeps_waiting tr lt i t :
  run New tr = Some lt → tasks lt !! i = Some t → startRet t = Some None →
  (ctxDone lt = false →
   sup t = SupSelect ∧ stopCalls t = 0 ∧ 0 < serviceWg lt ∧
   step CallWait lt = None ∧
   Forall (λ l, step l lt = None) (sup_labels i)) ∧
  (ctxDone lt = true → exited lt = None → sup t = SupSelect →
   step (SelectErr i) lt = None ∧
   ∃ lt' t', step (SelectDone i) lt = Some lt' ∧
             tasks lt' !! i = Some t' ∧ sup t' = SupInStop ∧
             stopCalls t' = 1 ∧ startRet t' = Some None) ∧
  (sup t = SupDone → stopCalls t = 1).
Proof.
  intros Hrun Hi Hret. assert (reachable lt) as Hr by (by exists tr).
  pose proof (reachable_task _ _ _ Hr Hi) as [Hg Hs].
  pose proof (reachable_inv _ Hr) as [_ Hwg Hopen _ _ _].
  pose proof (counted_le_sum _ _ _ Hi) as Hle. rewrite <- Hwg in Hle.
  unfold go_ok, sup_ok, go_past_send in *.
  destruct t as [s g w sc sr pc fw]; simplify_eq/=.
  assert (g = GoDefer ∨ g = GoDone) as Hgo.
  { destruct g; intuition congruence. }
  split; [|split].
  - intros Hc.
    assert (s = SupSelect) as ->.
    { destruct s; try done; destruct Hgo; subst; try (intuition congruence);
        destruct Hs as [(_ & _ & e & ? & _)|(_ & _ & _ & ? & _)]; congruence. }
    change (counted _) with 1 in Hle.
    split; [done|]. split; [tauto|]. split; [done|]. split.
    + unfold step, live_step, Wait_returns. destruct (exited lt); [done|].
      destruct (serviceWg lt); [lia|done].
    + unfold sup_labels. repeat (apply Forall_cons; split); try done.
      all: unfold step, live_step, errCh_send, task_step.
      all: destruct (exited lt); [done|]; rewrite Hi, ?Hc; simpl.
      all: destruct Hgo as [-> | ->]; done.
  - intros Hc Hlive ->.
    unfold step, live_step, task_step. rewrite Hlive, Hi, Hc. simpl.
    split; [by destruct Hgo as [-> | ->]|].
    eexists _, _. split; [done|]. simpl.
    rewrite list_lookup_insert_eq by (by eapply lookup_lt_Some).
    split; [done|]. simpl. split; [done|]. split; [|done].
    destruct Hs as (_ & -> & _). done.
  - intros ->. destruct Hs as [(_ & _ & e & ? & _)|(_ & ? & _)]; [done|done].
Qed.

Lemma C10_witness :
  run New clean_trace = Some clean_state ∧
  tasks clean_state !! 0 = Some clean_task ∧
  startRet clean_task = Some None ∧
  ctxDone clean_state = false ∧
  sup clean_task = SupSelect ∧ stopCalls clean_task = 0 ∧
  0 < serviceWg clean_state ∧ step CallWait clean_state = None ∧
  Forall (λ l, step l clean_state = None) (sup_labels 0).
Proof.
  split; [reflexivity|]. split; [reflexivity|]. split; [reflexivity|].
  split; [reflexivity|].
  apply (C10_clean_return_keeps_waiting clean_trace clean_state 0 clean_task);
    reflexivity.
Defined.

(** *** C4 *)

Lemma stuck_step l lt lt' i t :
  step l lt = Some lt' → tasks lt !! i = Some t → stuck t →
  tasks lt' !! i = Some t.
Proof.
  intros Hstep Hi (Hs & [e Hg] & Hw). open_step Hstep.
  destruct l; simpl in Hstep;
    try (destruct (decide (i0 = i)) as [->|Hne];
         [rewrite Hi in Hstep; unfold task_step in Hstep;
          rewrite ?Hs, ?Hg in Hstep; simpl in Hstep;
          try (destruct (startWg t); [done|]); simplify_eq/=
         |destruct (tasks lt !! i0) as [u|]; simpl in Hstep; [|done];
          try (destruct (task_step _ _ u); simpl in Hstep; [|done])]);
    repeat case_match; simplify_eq/=;
    try rewrite list_lookup_insert_ne by done; try done.
  by apply lookup_app_l_Some.
Qed.

Lemma stuck_run tr : ∀ lt lt' i t,
  run lt tr = Some lt' → tasks lt !! i = Some t → stuck t →
  tasks lt' !! i = Some t.
Proof.
  induction tr as [|l tr IH]; intros lt lt' i t Hrun Hi Hst; simplify_eq/=.
  - done.
  - destruct (step l lt) as [lt1|] eqn:Hstep; simplify_eq/=.
    eauto using stuck_step.
Qed.

(** C4 fails on the code. After [deadlock_trace] and whatever happens next,
    the task is unchanged: the supervising goroutine is at
    [startWg.Wait()], which cannot return, the goroutine of [Start] is at
    its send, which nobody receives, the error has not been sent to the
    error channel, and [Wait] cannot return. *)
Theorem C4_late_start_error_deadlocks tr lt :
  run New (deadlock_trace ++ tr) = Some lt →
  tasks lt !! 0 = Some deadlocked_task ∧
  step (SupWait 0) lt = None ∧ step (SelectErr 0) lt = None ∧
  step (SupForward 0) lt = None ∧ step CallWait lt = None.
Proof.
  intros Hrun. assert (reachable lt) as Hr by (by eexists).
  rewrite run_app in Hrun.
  change (run New deadlock_trace) with
    (Some (mkLifetime true 1 false [deadlocked_task] DispRecv (LisRecv 0%Z)
             None [] None)) in Hrun.
  simpl in Hrun.
  assert (stuck deadlocked_task) as Hst.
  { split; [done|]. split; [by eexists|done]. }
  pose proof (stuck_run _ _ _ 0 deadlocked_task Hrun eq_refl Hst) as Hi.
  pose proof (reachable_inv _ Hr) as [_ Hwg _ _ _ _].
  pose proof (counted_le_sum _ _ _ Hi) as Hle. rewrite <- Hwg in Hle.
  change (counted _) with 1 in Hle.
  split; [done|].
  unfold step, live_step, task_step, Wait_returns.
  destruct (exited lt); [done|]. rewrite Hi. simpl.
  repeat split. destruct (serviceWg lt); [lia|done].
Qed.

Lemma C4_witness :
  run New (deadlock_trace ++ [CallShutdown; ParentCancel])
  = Some (mkLifetime true 1 false [deadlocked_task] DispRecv (LisRecv 0%Z)
            None [] None) ∧
  step (SupWait 0)
    (mkLifetime true 1 false [deadlocked_task] DispRecv (LisRecv 0%Z)
       None [] None) = None.
Proof.
  split; [reflexivity|].
  apply (C4_late_start_error_deadlocks [CallShutdown; ParentCancel]).
  reflexivity.
Defined.

(** *** C5 *)

Lemma signal_event_expected k sig :
  signal_event (Z.of_nat (S k)) sig = expected_event k sig.
Proof.
  unfold signal_event, expected_event.
  destruct k as [|k].
  - by destruct sig.
  - replace (1 <? Z.of_nat (S (S k)))%Z with true; [done|].
    symmetry. apply Z.ltb_lt. lia.
Qed.

Lemma handleShutdownSignals_loop_lookup sigs : ∀ count k sig,
  (0 ≤ count)%Z → (count + Z.of_nat (length sigs) ≤ max_int)%Z →
  sigs !! k = Some sig →
  handleShutdownSignals_loop count sigs !! k
  = Some ((count + Z.of_nat (S k))%Z,
          signal_event (count + Z.of_nat (S k))%Z sig).
Proof.
  induction sigs as [|s sigs IH]; intros count k sig H0 Hmax Hk; [done|].
  simpl in Hmax. unfold handleShutdownSignals_loop; fold handleShutdownSignals_loop.
  unfold handleShutdownSignals_iter, int_incr.
  destruct (count =? max_int)%Z eqn:Heq; [apply Z.eqb_eq in Heq; lia|].
  destruct k as [|k]; simplify_eq/=.
  - by replace (count + 1)%Z with (count + Z.of_nat 1)%Z by lia.
  - rewrite (IH (count + 1)%Z k sig) by (done || lia).
    by replace (count + 1 + Z.of_nat (S k))%Z
      with (count + Z.of_nat (S (S k)))%Z by lia.
Qed.

(** The loop body on its own: on fewer than 2^63 received signals ([count]
    is a 64-bit [int]), after the [k]-th signal [count] is [k + 1] and the
    error sent is the one the specification asks for. *)
Lemma handleShutdownSignals_loop_expected (sigs : list Signal) k sig :
  (Z.of_nat (length sigs) ≤ max_int)%Z →
  sigs !! k = Some sig →
  handleShutdownSignals_loop 0%Z sigs !! k
  = Some (Z.of_nat (S k), expected_event k sig).
Proof.
  intros Hlen Hk.
  rewrite (handleShutdownSignals_loop_lookup sigs 0%Z k sig) by (done || lia).
  by rewrite Z.add_0_l, signal_event_expected.
Qed.

Lemma lis_inv_frame lt lt' :
  listener lt' = listener lt → (imm_pending lt → imm_pending lt') →
  lis_inv lt → lis_inv lt'.
Proof.
  unfold lis_inv. intros -> Himm. destruct (listener lt); naive_solver.
Qed.

Lemma step_lis_inv l lt lt' :
  step l lt = Some lt' → errClosed lt = false → lis_inv lt → lis_inv lt'.
Proof.
  intros Hstep Hopen Hinv. open_step Hstep. rewrite Hopen in Hstep.
  destruct l; simpl in Hstep;
    try (destruct (tasks lt !! i) as [t|]; simpl in Hstep; [|done];
         try (destruct (task_step _ _ t); simpl in Hstep; [|done])).
  1: { (* CallInit *)
    destruct (dispatcher lt), (listener lt); simplify_eq. by left. }
  19: { (* LisForward *)
    unfold lis_inv, imm_pending in *.
    destruct (listener lt) as [|c|c e]; try done.
    destruct (dispatcher lt) eqn:Hd; simplify_eq/=.
    destruct Hinv as [->|[[-> ->]|[_ [?|?]]]]; try done; auto. }
  18: { (* LisTake *)
    unfold lis_inv, imm_pending in *.
    destruct (listener lt) as [|c|c e]; try done.
    destruct (signals lt); simplify_eq/=.
    destruct Hinv as [->|[->|[-> Hp]]]; unfold int_incr, signal_event; simpl; auto. }
  all: eapply lis_inv_frame; [| |exact Hinv].
  all: repeat case_match; simplify_eq/=; try done.
  all: unfold imm_pending; simpl; intros [Hd|He]; try congruence; auto.
  all: rewrite Hd in *; by simplify_eq/=.
Qed.

Lemma listener_count_bounded tr lt :
  run New tr = Some lt →
  match listener lt with
  | LisOff => True
  | LisRecv count | LisSend count _ => (0 ≤ count ≤ 3)%Z
  end.
Proof.
  intros Hrun.
  assert (∀ tr lt lt', run lt tr = Some lt' → inv lt → lis_inv lt →
                       lis_inv lt') as Hgen.
  { clear. induction tr as [|l tr IH]; intros lt lt' Hrun Hinv Hl;
      simplify_eq/=; [done|].
    destruct (step l lt) as [lt1|] eqn:Hstep; simplify_eq/=.
    eapply IH; [done|by eapply step_inv|].
    eapply step_lis_inv; [done|by destruct Hinv|done]. }
  specialize (Hgen _ _ _ Hrun inv_New I).
  unfold lis_inv in Hgen. destruct (listener lt); [done| |];
    destruct Hgen as [?|[?|?]]; naive_solver lia.
Qed.

Lemma step_count_of l lt lt' :
  step l lt = Some lt' → errClosed lt = false → l ≠ LisTake →
  count_of (listener lt') = count_of (listener lt).
Proof.
  intros Hstep Hopen Hne. open_step Hstep. rewrite Hopen in Hstep.
  destruct l; simpl in Hstep; try done;
    try (destruct (tasks lt !! i) as [t|]; simpl in Hstep; [|done];
         try (destruct (task_step _ _ t); simpl in Hstep; [|done])).
  all: repeat case_match; simplify_eq/=; try done.
  all: match goal with H : listener _ = _ |- _ => by rewrite H end.
Qed.

Lemma step_LisTake lt lt' :
  step LisTake lt = Some lt' → lis_inv lt →
  ∃ count sig,
    listener lt = LisRecv count ∧ signals lt = Some sig ∧
    (0 ≤ count ≤ 2)%Z ∧
    listener lt' = LisSend (count + 1)%Z (signal_event (count + 1)%Z sig).
Proof.
  intros Hstep Hl. open_step Hstep. simpl in Hstep. unfold lis_inv in Hl.
  destruct (listener lt) as [|count|] eqn:Hlis; try done.
  destruct (signals lt) as [sig|] eqn:Hsig; simplify_eq/=.
  exists count, sig. unfold int_incr.
  destruct Hl as [->|[->|[-> _]]]; simpl; repeat split; (done || lia).
Qed.

Lemma listener_log_counts tr : ∀ lt k sig count err,
  inv lt → lis_inv lt → is_Some (run lt tr) →
  listener_log lt tr !! k = Some (sig, count, err) →
  count = (count_of (listener lt) + Z.of_nat (S k))%Z ∧
  err = signal_event count sig ∧ (count ≤ 3)%Z.
Proof.
  induction tr as [|l tr IH]; intros lt k sig count err Hinv Hl [lt2 Hrun] Hk;
    [done|].
  simpl in Hrun, Hk.
  destruct (step l lt) as [lt1|] eqn:Hstep; simplify_eq/=.
  pose proof (step_inv _ _ _ Hstep Hinv) as Hinv1.
  pose proof Hinv as [_ _ Hopen _ _ _].
  pose proof (step_lis_inv _ _ _ Hstep Hopen Hl) as Hl1.
  assert (is_Some (run lt1 tr)) as Hrun1 by eauto.
  assert (l = LisTake ∨ l ≠ LisTake) as [->|Hne]
    by (destruct l; (by left) || (by right)).
  - destruct (step_LisTake _ _ Hstep Hl) as (c & s & Hlis & Hsig & Hc & Hlis1).
    rewrite Hsig, Hlis1 in Hk. rewrite Hlis. simpl.
    destruct k as [|k]; simplify_eq/=.
    + repeat split; lia.
    + destruct (IH lt1 k sig count err Hinv1 Hl1 Hrun1 Hk) as (-> & -> & Hle).
      rewrite Hlis1 in Hle |- *. simpl in Hle |- *. repeat split; lia.
  - rewrite <- (step_count_of _ _ _ Hstep Hopen Hne).
    apply IH; try done.
    destruct l; try done; by repeat case_match.
Qed.

(** C5. Along every schedule of the program, whatever signals the operating
    system delivers: the [k]-th signal the listener receives (counted from
    0) sets [count] to [k + 1], so the count grows by one with every
    signal received, and the listener sends [ErrShutdownSignalReceived] for
    it if it is the first signal received and an interrupt or a terminate,
    and [ErrImmediateShutdownSignalReceived] if it is a repeat or a kill.
    ([count] is a 64-bit [int]; it never exceeds 3, the dispatcher ending
    the process on the first immediate error it receives.) *)
Theorem C5_signal_escalation tr lt k sig count err :
  run New tr = Some lt →
  listener_log New tr !! k = Some (sig, count, err) →
  count = Z.of_nat (S k) ∧ err = expected_event k sig ∧ (count ≤ 3)%Z.
Proof.
  intros Hrun Hk.
  destruct (listener_log_counts tr New k sig count err inv_New I
              (ex_intro _ lt Hrun) Hk) as (Hc & He & Hle).
  simpl in Hc. rewrite Z.add_0_l in Hc. subst count.
  by rewrite signal_event_expected in He.
Qed.

Lemma C5_witness :
  run New signals_trace = Some signals_final ∧
  listener_log New signals_trace
  = [(SIGTERM, 1%Z, ErrShutdownSignalReceived);
     (SIGINT, 2%Z, ErrImmediateShutdownSignalReceived);
     (SIGKILL, 3%Z, ErrImmediateShutdownSignalReceived)] ∧
  2%Z = Z.of_nat (S 1) ∧
  ErrImmediateShutdownSignalReceived = expected_event 1 SIGINT ∧ (2 ≤ 3)%Z.
Proof.
  split; [by vm_compute|]. split; [by vm_compute|].
  apply (C5_signal_escalation signals_trace signals_final
           1 SIGINT 2%Z ErrImmediateShutdownSignalReceived); by vm_compute.
Defined.

(** *** C6 *)

(** C6. When the dispatcher has received an error [e], its next statement
    can always be executed, whatever the services are doing.  If [e] is the
    immediate-shutdown error, the process ends with status 1, the context's
    cancellation state, the log and every task (among them those inside
    [Stop]) are left as they were, and nothing runs afterwards.  Otherwise
    [e] is logged, the context is cancelled and the dispatcher is back at
    its receive. *)
Theorem C6_dispatch lt e :
  exited lt = None → dispatcher lt = DispGot e →
  ∃ lt', step DispHandle lt = Some lt' ∧ tasks lt' = tasks lt ∧
    if is_ErrImmediate e
    then exited lt' = Some 1%Z ∧ 1%Z ≠ 0%Z ∧ ctxDone lt' = ctxDone lt ∧
         logged lt' = logged lt ∧ ∀ l, step l lt' = None
    else exited lt' = None ∧ logged lt' = logged lt ++ [e] ∧
         ctxDone lt' = true ∧ dispatcher lt' = DispRecv.
Proof.
  intros Hlive Hd. unfold step, live_step. rewrite Hlive, Hd.
  unfold handleErrors_iter, Shutdown, cancelFunc, os_Exit.
  destruct (is_ErrImmediate e).
  - eexists. split; [done|]. simpl. repeat split; done.
  - destruct (ctxDone (set_logged _ lt)) eqn:Hc;
      eexists; (split; [done|]); simpl in *; by rewrite ?Hlive, ?Hc.
Qed.

Lemma C6_witness :
  run New escalate_trace = Some escalate_state ∧
  tasks escalate_state !! 0 = Some stopping_task ∧
  ∃ lt', step DispHandle escalate_state = Some lt' ∧
    tasks lt' = tasks escalate_state ∧
    exited lt' = Some 1%Z ∧ 1%Z ≠ 0%Z ∧
    ctxDone lt' = ctxDone escalate_state ∧
    logged lt' = logged escalate_state ∧ ∀ l, step l lt' = None.
Proof.
  split; [reflexivity|]. split; [reflexivity|].
  apply (C6_dispatch escalate_state ErrImmediateShutdownSignalReceived);
    reflexivity.
Defined.

(** *** C7 *)

Lemma Shutdown_done lt : ctxDone (Shutdown lt) = true.
Proof. unfold Shutdown, cancelFunc. by destruct (ctxDone lt) eqn:H. Qed.

Lemma Shutdown_idem lt : Shutdown (Shutdown lt) = Shutdown lt.
Proof.
  unfold Shutdown at 1, cancelFunc at 1. by rewrite Shutdown_done.
Qed.

Lemma step_ctx_mono l lt lt' :
  step l lt = Some lt' → ctxDone lt = true → ctxDone lt' = true.
Proof.
  intros Hstep Hc. open_step Hstep. rewrite Hc in Hstep.
  destruct l; simpl in Hstep;
    try (destruct (tasks lt !! i) as [t|]; simpl in Hstep; [|done];
         try (destruct (task_step _ _ t); simpl in Hstep; [|done])).
  all: repeat case_match; simplify_eq/=; done.
Qed.

Lemma ctx_history_head lt tr :
  ∃ h, ctx_history lt tr = ctxDone lt :: h.
Proof. destruct tr; simpl; eauto. Qed.

Lemma history_cancelled tr : ∀ lt,
  ctxDone lt = true →
  triggers (ctx_history lt tr) = 0 ∧ untriggers (ctx_history lt tr) = 0.
Proof.
  induction tr as [|l tr IH]; intros lt Hc; simpl; rewrite ?Hc; [done|].
  destruct (step l lt) as [lt'|] eqn:Hstep; [|done].
  pose proof (step_ctx_mono _ _ _ Hstep Hc) as Hc'.
  destruct (IH lt' Hc') as [H1 H2]. rewrite H1, H2.
  destruct (ctx_history_head lt' tr) as [h ->]. simpl. by rewrite Hc'.
Qed.

Lemma history_triggers tr : ∀ lt,
  triggers (ctx_history lt tr) ≤ 1 ∧ untriggers (ctx_history lt tr) = 0.
Proof.
  induction tr as [|l tr IH]; intros lt; simpl.
  - split; [lia|done].
  - destruct (step l lt) as [lt'|] eqn:Hstep; simpl; [|split; [lia|done]].
    destruct (ctx_history_head lt' tr) as [h Hh].
    destruct (ctxDone lt) eqn:Hc.
    + pose proof (step_ctx_mono _ _ _ Hstep Hc) as Hc'.
      destruct (history_cancelled tr lt' Hc') as [H1 H2].
      rewrite H1, H2, Hh, Hc'. simpl. split; [lia|done].
    + destruct (ctxDone lt') eqn:Hc'.
      * destruct (history_cancelled tr lt' Hc') as [H1 H2].
        rewrite H1, H2, Hh. simpl. split; [lia|done].
      * destruct (IH lt') as [H1 H2]. rewrite Hh in *. simpl in *.
        split; lia.
Qed.

(** C7. Calling [Shutdown] [n] times, [n >= 1], gives the state one call
    gives, through the function and through the schedule of [n] calls; in
    that state the context is cancelled.  Along every schedule from every
    state the context changes from not cancelled to cancelled at most once
    and never back. *)
Theorem C7_shutdown_idempotent n lt tr :
  1 ≤ n →
  Nat.iter n Shutdown lt = Shutdown lt ∧
  (exited lt = None → run lt (replicate n CallShutdown) = Some (Shutdown lt)) ∧
  ctxDone (Shutdown lt) = true ∧
  triggers (ctx_history lt tr) ≤ 1 ∧ untriggers (ctx_history lt tr) = 0.
Proof.
  intros Hn.
  assert (Nat.iter n Shutdown lt = Shutdown lt) as Hiter.
  { destruct n as [|n]; [lia|]. clear Hn.
    induction n as [|n IH]; [done|].
    change (Nat.iter (S (S n)) Shutdown lt)
      with (Shutdown (Nat.iter (S n) Shutdown lt)).
    by rewrite IH, Shutdown_idem. }
  split; [done|]. split; [|split; [apply Shutdown_done|apply history_triggers]].
  intros Hlive. rewrite <- Hiter. clear Hiter Hn. revert lt Hlive.
  induction n as [|n IH]; intros lt Hlive; [done|].
  simpl. unfold step at 1. rewrite Hlive. simpl.
  rewrite IH.
  - f_equal. clear. induction n as [|n IH]; [done|]. simpl. by rewrite <- IH.
  - unfold Shutdown, cancelFunc. by destruct (ctxDone lt).
Qed.

Lemma C7_witness :
  1 ≤ 3 ∧
  Nat.iter 3 Shutdown New = Shutdown New ∧
  (exited New = None →
   run New (replicate 3 CallShutdown) = Some (Shutdown New)) ∧
  ctxDone (Shutdown New) = true ∧
  triggers (ctx_history New example_trace) ≤ 1 ∧
  untriggers (ctx_history New example_trace) = 0.
Proof.
  split; [lia|]. apply (C7_shutdown_idempotent 3 New example_trace). lia.
Defined.

(** *** C8 *)

(** C8. If the error channel is closed while the dispatcher is at its
    receive, the dispatcher's next statement cancels the context and leaves
    the loop: the goroutine has returned and executes nothing more. *)
Theorem C8_closed_queue lt :
  exited lt = None → errClosed lt = true → dispatcher lt = DispRecv →
  ∃ lt', step DispClosed lt = Some lt' ∧
    ctxDone lt' = true ∧ dispatcher lt' = DispReturned ∧
    exited lt' = None ∧
    Forall (λ l, step l lt' = None) disp_labels.
Proof.
  intros Hlive Hclosed Hd. unfold step, live_step. rewrite Hlive, Hd, Hclosed.
  eexists. split; [done|].
  unfold handleErrors_iter. simpl. rewrite Shutdown_done.
  assert (exited (cancelFunc lt) = None) as Hlive'.
  { unfold cancelFunc. by destruct (ctxDone lt). }
  repeat split; try done.
  unfold disp_labels. repeat (apply Forall_cons; split); try done.
  all: unfold step, live_step; simpl; by rewrite Hlive'.
Qed.

Lemma C8_witness :
  ∃ lt', step DispClosed
           (mkLifetime false 0 true [] DispRecv (LisRecv 0%Z) None [] None)
         = Some lt' ∧
    ctxDone lt' = true ∧ dispatcher lt' = DispReturned ∧
    exited lt' = None ∧
    Forall (λ l, step l lt' = None) disp_labels.
Proof.
  apply (C8_closed_queue
           (mkLifetime false 0 true [] DispRecv (LisRecv 0%Z) None [] None));
    reflexivity.
Defined.

(** *** C9 *)

(** C9. [Start] of the HTTP adapter returns nil when [ListenAndServe]
    returns [http.ErrServerClosed] and returns every other error of
    [ListenAndServe] as it is; [Start] of the gRPC adapter returns nil when
    [Serve] returns [grpc.ErrServerStopped], returns every other error of
    [Serve] as it is, and returns an error (wrapping the cause) when
    [net.Listen] fails. *)
Theorem C9_adapter_start_errors :
  httpService_Start (Some http_ErrServerClosed) = None ∧
  grpcService_Start None (Some grpc_ErrServerStopped) = None ∧
  (∀ err, err ≠ http_ErrServerClosed →
          httpService_Start (Some err) = Some err) ∧
  (∀ err, err ≠ grpc_ErrServerStopped →
          grpcService_Start None (Some err) = Some err) ∧
  (∀ err serve,
     grpcService_Start (Some err) serve
     = Some (fmt_Errorf_w "could not listen on tcp address" err)) ∧
  httpService_Start None = None ∧ grpcService_Start None None = None.
Proof.
  repeat split.
  - intros err Hne. by destruct err.
  - intros err Hne. by destruct err.
Qed.

Lemma C9_witness :
  httpService_Start (Some bind_error) = Some bind_error ∧
  grpcService_Start None (Some conn_error) = Some conn_error.
Proof.
  destruct C9_adapter_start_errors as (_ & _ & Hhttp & Hgrpc & _).
  split; [apply Hhttp|apply Hgrpc]; discriminate.
Defined.

(** ** Further properties *)

(** *** The wait group of the services *)

Lemma sum_counted_all_done (ts : list Task) :
  (∀ i t, ts !! i = Some t → sup t = SupDone) → sum_list_with counted ts = 0.
Proof.
  induction ts as [|x ts IH]; intros Hall; [done|]. simpl.
  rewrite IH by (intros i t Hi; by apply (Hall (S i))).
  unfold counted. by rewrite (Hall 0 x eq_refl).
Qed.

(** X1. [Wait] returns exactly when every supervising goroutine started by
    [Start] has returned: the counter of [serviceWg] is the number of
    supervising goroutines that have not executed their deferred
    [serviceWg.Done()]. *)
Theorem X1_wait_iff_all_returned tr lt :
  run New tr = Some lt →
  serviceWg lt = sum_list_with counted (tasks lt) ∧
  (Wait_returns lt = true ↔ all_returned lt).
Proof.
  intros Hrun. assert (reachable lt) as Hr by (by exists tr).
  pose proof (reachable_inv _ Hr) as [_ Hwg _ _ _ _].
  split; [done|]. unfold Wait_returns, all_returned. rewrite Nat.eqb_eq, Hwg.
  split.
  - intros H0 i t Hi. by eapply sum_counted_0.
  - apply sum_counted_all_done.
Qed.

Lemma X1_witness :
  run New example_trace = Some example_final ∧
  serviceWg example_final = sum_list_with counted (tasks example_final) ∧
  (Wait_returns example_final = true ↔ all_returned example_final).
Proof.
  split; [reflexivity|].
  apply (X1_wait_iff_all_returned example_trace example_final). reflexivity.
Defined.

(** *** Panics and the exit status *)

Lemma step_exit l lt lt' c :
  inv lt → step l lt = Some lt' → exited lt' = Some c →
  c = 1%Z ∧ dispatcher lt' = DispGot ErrImmediateShutdownSignalReceived.
Proof.
  intros Hinv Hstep Hex. open_step Hstep.
  pose proof Hinv as [Hts Hwg Hopen _ _ _]. rewrite Hopen in Hstep.
  destruct l; simpl in Hstep;
    try (destruct (tasks lt !! i) as [t|] eqn:Ht; simpl in Hstep; [|done];
         pose proof (Forall_lookup_1 _ _ _ _ Hts Ht) as [Hg Hs];
         pose proof (counted_le_sum _ _ _ Ht) as Hle; rewrite <- Hwg in Hle;
         try (destruct (task_step _ _ t); simpl in Hstep; [|done])).
  all: repeat case_match; simplify_eq/=; try congruence.
  - (* [startWg.Done()] on a zero counter *)
    unfold go_ok in Hg. destruct t; simplify_eq/=. lia.
  - (* [serviceWg.Done()] on a zero counter *)
    unfold counted in Hle. destruct t; simplify_eq/=. lia.
  - (* [os.Exit(1)] *)
    split; [done|]. by destruct e.
Qed.

Lemma reachable_exit lt c :
  reachable lt → exited lt = Some c →
  c = 1%Z ∧ dispatcher lt = DispGot ErrImmediateShutdownSignalReceived.
Proof.
  intros [tr Hrun]. revert lt Hrun.
  induction tr as [|l tr IH] using rev_ind; intros lt Hrun Hex.
  - by simplify_eq/=.
  - rewrite run_app in Hrun.
    destruct (run New tr) as [lt1|] eqn:Hrun1; simplify_eq/=.
    destruct (step l lt1) as [lt2|] eqn:Hstep; simplify_eq/=.
    eapply step_exit; [|done..]. apply reachable_inv. by exists tr.
Qed.

(** X2. The package never panics: no wait group counter goes below zero and
    nothing is sent on a closed channel.  The only way the package ends the
    process is [os.Exit(1)] in the dispatcher, on
    [ErrImmediateShutdownSignalReceived]. *)
Theorem X2_exit_only_by_dispatcher tr lt c :
  run New tr = Some lt → exited lt = Some c →
  c = 1%Z ∧ dispatcher lt = DispGot ErrImmediateShutdownSignalReceived.
Proof.
  intros Hrun. apply reachable_exit. by exists tr.
Qed.

Lemma X2_witness :
  run New signals_trace = Some signals_final ∧
  exited signals_final = Some 1%Z ∧
  1%Z = 1%Z ∧
  dispatcher signals_final = DispGot ErrImmediateShutdownSignalReceived.
Proof.
  split; [by vm_compute|]. split; [reflexivity|].
  apply (X2_exit_only_by_dispatcher signals_trace signals_final 1%Z);
    by vm_compute.
Defined.

(** *** Before [Init] *)

Lemma step_pre_init l lt lt' :
  inv lt → step l lt = Some lt' → pre_init lt → pre_init lt'.
Proof.
  intros Hinv Hstep Hpre Hoff. open_step Hstep.
  pose proof Hinv as [_ _ Hopen _ Hinit _]. rewrite Hopen in Hstep.
  unfold pre_init in Hpre.
  destruct l; simpl in Hstep;
    try (destruct (tasks lt !! i) as [t|] eqn:Ht; simpl in Hstep; [|done];
         try (destruct (task_step _ _ t) as [t'|] eqn:Hts; simpl in Hstep;
              [|done])).
  all: repeat case_match; simplify_eq/=; try done.
  all: try (destruct Hpre as (? & ? & Hf); [done|]; repeat split; try done).
  all: try (apply Forall_insert; [done|];
            erewrite ?task_step_forwarded by done; simpl;
            by eapply (Forall_lookup_1 _ _ _ _ Hf)).
  all: try (apply Forall_app; split; [done|]; by apply Forall_singleton).
  all: try (destruct Hinit as [Hinit _]; by specialize (Hinit Hoff)).
  congruence.
Qed.

(** X3. As long as [Init] has not been called nothing consumes the error
    channel: no error has been handed over or logged, the process has not
    been ended, and a supervising goroutine that holds a start-up error
    stays blocked at its send. *)
Theorem X3_nothing_dispatched_before_Init tr lt :
  run New tr = Some lt → dispatcher lt = DispOff →
  exited lt = None ∧ logged lt = [] ∧
  ∀ i t, tasks lt !! i = Some t →
         forwarded t = None ∧ step (SupForward i) lt = None.
Proof.
  intros Hrun Hoff.
  assert (pre_init lt) as Hpre.
  { clear Hoff. revert lt Hrun.
    induction tr as [|l tr IH] using rev_ind; intros lt Hrun.
    - simplify_eq/=. by intros _.
    - rewrite run_app in Hrun.
      destruct (run New tr) as [lt1|] eqn:Hrun1; simplify_eq/=.
      destruct (step l lt1) as [lt2|] eqn:Hstep; simplify_eq/=.
      eapply step_pre_init; [|done|by apply IH].
      apply reachable_inv. by exists tr. }
  destruct (Hpre Hoff) as (Hlog & _ & Hf).
  assert (exited lt = None) as Hlive.
  { destruct (exited lt) as [c|] eqn:Hex; [|done].
    destruct (reachable_exit lt c (ex_intro _ tr Hrun) Hex) as [_ Hd].
    congruence. }
  assert (errClosed lt = false) as Hopen.
  { by destruct (reachable_inv lt (ex_intro _ tr Hrun)). }
  repeat split; try done.
  - by eapply (Forall_lookup_1 _ _ _ _ Hf).
  - unfold step, live_step, errCh_send. rewrite Hlive, H, Hopen, Hoff. simpl.
    by destruct (sup t).
Qed.

Lemma X3_witness :
  run New uninitialised_trace = Some uninitialised_state ∧
  dispatcher uninitialised_state = DispOff ∧
  exited uninitialised_state = None ∧ logged uninitialised_state = [] ∧
  ∀ i t, tasks uninitialised_state !! i = Some t →
         forwarded t = None ∧ step (SupForward i) uninitialised_state = None.
Proof.
  split; [reflexivity|]. split; [reflexivity|].
  apply (X3_nothing_dispatched_before_Init uninitialised_trace
           uninitialised_state); reflexivity.
Defined.

(** *** No shutdown without a cause *)

Lemma task_step_calm l (t t' : Task) :
  quiet l = true → task_step l false t = Some t' →
  calm_task t → calm_task t'.
Proof.
  unfold task_step, calm_task. destruct t as [s g w sc sr pc fw]; simpl.
  intros Hq Hstep (Hs & Hg & Hp).
  destruct l; try done; simplify_eq/=;
    repeat case_match; simplify_eq/=; naive_solver.
Qed.

Lemma step_calm l lt lt' :
  inv lt → quiet l = true → step l lt = Some lt' → calm lt → calm lt'.
Proof.
  intros Hinv Hq Hstep (Hc & Hlive & Hlog & Hsig & Hd & Hl & Hts).
  pose proof Hinv as [Hti Hwg Hopen _ _ _].
  unfold step in Hstep. rewrite Hlive in Hstep.
  unfold live_step, errCh_send, handleErrors_iter, Start, Init, Wait_returns,
    wg_Done, panic in Hstep.
  rewrite Hopen, Hc, Hsig in Hstep.
  destruct l; try done; simpl in Hstep;
    try (destruct (tasks lt !! i) as [t|] eqn:Ht; simpl in Hstep; [|done];
         pose proof (Forall_lookup_1 _ _ _ _ Hts Ht) as Hct;
         pose proof (Forall_lookup_1 _ _ _ _ Hti Ht) as [Hg Hs];
         pose proof (counted_le_sum _ _ _ Ht) as Hle; rewrite <- Hwg in Hle;
         try (destruct (task_step _ _ t) as [t'|] eqn:Htstep;
              simpl in Hstep; [|done])).
  all: unfold calm.
  all: repeat case_match; simplify_eq/=;
    try (destruct Hd; congruence); try (destruct Hl as [?|[? ?]]; congruence).
  all: try (split_and!; eauto; fail).
  all: try (split_and!; eauto;
            apply Forall_insert; first
              [ exact Hts
              | match goal with
                | H : task_step ?l _ ?t = Some ?t' |- _ =>
                    apply (task_step_calm l t t');
                    first [assumption | reflexivity]
                end ]).
  - (* CallStart *)
    split_and!; eauto. apply Forall_app. split; [done|].
    apply Forall_singleton. unfold calm_task. simpl. naive_solver.
  - (* GoExit *)
    split_and!; eauto. apply Forall_insert; [done|].
    unfold calm_task in *. destruct t; simplify_eq/=. naive_solver.
  - unfold go_ok in Hg. destruct t; simplify_eq/=. lia.
  - unfold calm_task in Hct. destruct Hct as ([?|?] & _); congruence.
  - unfold calm_task in Hct. destruct Hct as ([?|?] & _); congruence.
  - unfold calm_task in Hct. destruct Hct as ([?|?] & _); congruence.
Qed.

Lemma run_calm tr : ∀ lt lt',
  inv lt → Forall (λ l, quiet l = true) tr → run lt tr = Some lt' →
  calm lt → calm lt'.
Proof.
  induction tr as [|l tr IH]; intros lt lt' Hinv Hq Hrun Hcalm;
    simplify_eq/=; [done|].
  apply Forall_cons in Hq as [Hl Hq].
  destruct (step l lt) as [lt1|] eqn:Hstep; simplify_eq/=.
  eapply IH; [by eapply step_inv|done|done|by eapply step_calm].
Qed.

(** X4. A shutdown has a cause.  Along a schedule in which nobody calls
    [Shutdown], the parent context is not cancelled, no signal arrives and
    no service's [Start] returns an error (it may return nil), the context
    is not cancelled, nothing is logged, the process is not ended, [Stop]
    is called on no service and no supervising goroutine returns. *)
Theorem X4_no_shutdown_without_cause tr lt :
  Forall (λ l, quiet l = true) tr → run New tr = Some lt →
  ctxDone lt = false ∧ exited lt = None ∧ logged lt = [] ∧
  ∀ i t, tasks lt !! i = Some t →
         stopCalls t = 0 ∧ (sup t = SupEntry ∨ sup t = SupSelect) ∧
         step CallWait lt = None.
Proof.
  intros Hq Hrun.
  assert (calm New) as Hnew.
  { unfold calm. simpl. repeat split; auto. }
  pose proof (run_calm tr New lt inv_New Hq Hrun Hnew)
    as (Hc & Hlive & Hlog & _ & _ & _ & Hts).
  repeat split; try done.
  - by destruct (Forall_lookup_1 _ _ _ _ Hts H) as (_ & _ & ?).
  - by destruct (Forall_lookup_1 _ _ _ _ Hts H) as (? & _ & _).
  - destruct (Forall_lookup_1 _ _ _ _ Hts H) as (Hs & _ & _).
    pose proof (reachable_inv lt (ex_intro _ tr Hrun)) as [_ Hwg _ _ _ _].
    pose proof (counted_le_sum _ _ _ H) as Hle. rewrite <- Hwg in Hle.
    unfold step, live_step, Wait_returns. rewrite Hlive.
    unfold counted in Hle.
    destruct (serviceWg lt); [|done]. destruct Hs as [Hs|Hs]; rewrite Hs in Hle; lia.
Qed.

Lemma X4_witness :
  Forall (λ l, quiet l = true) calm_trace ∧
  run New calm_trace = Some calm_state ∧
  ctxDone calm_state = false ∧ exited calm_state = None ∧
  logged calm_state = [] ∧
  ∀ i t, tasks calm_state !! i = Some t →
         stopCalls t = 0 ∧ (sup t = SupEntry ∨ sup t = SupSelect) ∧
         step CallWait calm_state = None.
Proof.
  assert (Forall (λ l, quiet l = true) calm_trace) as Hq
    by (by repeat constructor).
  split; [exact Hq|]. split; [reflexivity|].
  apply (X4_no_shutdown_without_cause calm_trace calm_state Hq). reflexivity.
Defined.

(** *** What is logged, and what becomes of a forwarded error *)

Lemma fwd_rel_same ts d d' lg lg' : fwd_rel ts ts d d' lg lg'.
Proof. split; [by eauto|]. intros i t' e Hi He. left. eauto. Qed.

Lemma fwd_rel_insert ts j u u' d d' lg lg' :
  ts !! j = Some u → forwarded u' = forwarded u →
  startRet u' = startRet u ∨ forwarded u = None →
  fwd_rel ts (<[j := u']> ts) d d' lg lg'.
Proof.
  intros Hj Hf Hr. split.
  - intros i t e Hi He. destruct (decide (i = j)) as [->|Hne].
    + simplify_eq. exists u'.
      rewrite list_lookup_insert_eq by (by eapply lookup_lt_Some).
      split; [done|]. split; [congruence|].
      destruct Hr as [?|?]; congruence.
    + exists t. by rewrite list_lookup_insert_ne.
  - intros i t' e Hi He. left. destruct (decide (i = j)) as [->|Hne].
    + rewrite list_lookup_insert_eq in Hi by (by eapply lookup_lt_Some).
      simplify_eq. exists u. split; [done|]. congruence.
    + rewrite list_lookup_insert_ne in Hi by done. eauto.
Qed.

Lemma task_step_startRet l b (t t' : Task) :
  task_step l b t = Some t' → task_inv b t →
  startRet t' = startRet t ∨ forwarded t = None.
Proof.
  unfold task_step, task_inv, go_ok, sup_ok, go_past_send.
  destruct t as [s g w sc sr pc fw]; simpl.
  intros Hstep [Hg Hs].
  destruct l; try done; destruct s, g; simplify_eq/=;
    repeat case_match; simplify_eq/=; naive_solver.
Qed.

(** A step keeps what the supervising goroutines have sent, and adds to it
    only by the send of [lifetime.errCh <- startErr]. *)
Lemma step_forwarded l lt lt' :
  inv lt → step l lt = Some lt' →
  fwd_rel (tasks lt) (tasks lt') (dispatcher lt) (dispatcher lt')
    (logged lt) (logged lt').
Proof.
  intros Hinv Hstep. open_step Hstep.
  pose proof Hinv as [Hts _ Hopen _ _ _]. rewrite Hopen in Hstep.
  destruct l; simpl in Hstep;
    try (destruct (tasks lt !! i) as [t|] eqn:Ht; simpl in Hstep; [|done];
         pose proof (Forall_lookup_1 _ _ _ _ Hts Ht) as Hti;
         try (destruct (task_step _ _ t) as [u'|] eqn:Htstep;
              simpl in Hstep; [|done])).
  all: repeat case_match; simplify_eq/=; try apply fwd_rel_same.
  all: try (eapply fwd_rel_insert;
            first [ exact Ht | by eapply task_step_forwarded
                  | by eapply task_step_startRet ]).
  - (* CallStart *)
    split.
    + intros i t e Hi He. exists t. split; [by apply lookup_app_l_Some|done].
    + intros i t' e Hi He. left.
      apply lookup_app_Some in Hi as [Hi|[_ Hi]]; [by eauto|].
      destruct (i - length (tasks lt)) as [|[|?]]; by simplify_eq/=.
  - (* GoExit *)
    eapply fwd_rel_insert; [done|done|by left].
  - (* SupForward *)
    destruct Hti as [Hg Hs]. unfold sup_ok in Hs.
    destruct t as [s g w sc sr pc fw]; simplify_eq/=.
    destruct Hs as (_ & -> & _ & ->). split.
    + intros j t e' Hj He. destruct (decide (j = i)) as [->|Hne].
      * by simplify_eq/=.
      * exists t. by rewrite list_lookup_insert_ne.
    + intros j t' e' Hj He. destruct (decide (j = i)) as [->|Hne].
      * rewrite list_lookup_insert_eq in Hj by (by eapply lookup_lt_Some).
        simplify_eq/=. by right.
      * rewrite list_lookup_insert_ne in Hj by done. left. eauto.
  - (* SupExit *)
    eapply fwd_rel_insert; [done|done|by left].
Qed.


Lemma from_service_step lt lt' d d' lg lg' e :
  fwd_rel (tasks lt) (tasks lt') d d' lg lg' →
  from_service lt e → from_service lt' e.
Proof.
  intros [Hkeep _] (i & t & Hi & Hf & Hr).
  destruct (Hkeep i t e Hi Hf) as (t' & Hi' & Hf' & Hr').
  exists i, t'. split; [done|]. split; [done|]. congruence.
Qed.

(** The steps that leave the log alone. *)
Lemma log_inv_frame lt lt' :
  log_inv lt →
  fwd_rel (tasks lt) (tasks lt') (dispatcher lt) (dispatcher lt')
    (logged lt) (logged lt') →
  logged lt' = logged lt →
  (ctxDone lt = true → ctxDone lt' = true) →
  (exited lt ≠ None → exited lt' ≠ None) →
  (∀ e, dispatcher lt' = DispGot e →
        dispatcher lt = DispGot e ∨ e = ErrShutdownSignalReceived ∨
        e = ErrImmediateShutdownSignalReceived ∨ from_service lt' e) →
  (∀ e, dispatcher lt = DispGot e → dispatcher lt' = DispGot e) →
  (∀ count e, listener lt' = LisSend count e →
              e = ErrShutdownSignalReceived ∨
              e = ErrImmediateShutdownSignalReceived) →
  log_inv lt'.
Proof.
  intros [H1 H2 H3 H4 H5] Hfwd Hlog Hctx Hex Hgot Hgot' Hsend.
  split.
  - rewrite Hlog. auto.
  - rewrite Hlog. intros e He. destruct (H2 e He) as [? [?|?]]; split; auto.
    right. by eapply from_service_step.
  - intros e He. destruct (Hgot e He) as [Hd|?]; [|done].
    destruct (H3 e Hd) as [?|[?|?]]; auto.
    right. right. by eapply from_service_step.
  - done.
  - intros i t' e Hi He. rewrite Hlog.
    destruct Hfwd as [_ Hnew].
    destruct (Hnew i t' e Hi He) as [(t & Hi0 & He0)|(_ & ? & _)]; [|auto].
    destruct (H5 i t e Hi0 He0) as [?|[?|?]]; auto.
Qed.

Lemma step_log_inv l lt lt' :
  inv lt → step l lt = Some lt' → log_inv lt → log_inv lt'.
Proof.
  intros Hinv Hstep Hlog.
  pose proof (step_forwarded _ _ _ Hinv Hstep) as Hfwd.
  pose proof (step_inv _ _ _ Hstep Hinv) as Hinv'.
  pose proof (step_ctx_mono _ _ _ Hstep) as Hmono.
  open_step Hstep.
  pose proof Hinv as [Hts _ Hopen _ _ _]. rewrite Hopen in Hstep.
  destruct l; simpl in Hstep;
    try (destruct (tasks lt !! i) as [t|] eqn:Ht; simpl in Hstep; [|done];
         pose proof (Forall_lookup_1 _ _ _ _ Hts Ht) as Hti;
         try (destruct (task_step _ _ t) as [u'|] eqn:Htstep;
              simpl in Hstep; [|done])).
  all: repeat case_match; simplify_eq/=.
  all: try (apply (log_inv_frame lt); simpl; try done;
            try (intros; congruence); try (by destruct Hlog); auto; fail).
all: try exact Hlog.
  - (* SupForward *)
    destruct Hti as [Hg Hs]. unfold sup_ok in Hs. rewrite H in Hs.
    destruct Hs as (_ & Hr & _ & _).
    apply (log_inv_frame lt); simpl; try done; try (by destruct Hlog).
    + by rewrite H0.
    + rewrite H0. intros e0 [= <-]. right. right. right.
      exists i, (set_sup SupDefer (set_forwarded (Some e) t)). simpl.
      rewrite list_lookup_insert_eq by (by eapply lookup_lt_Some). done.
    + rewrite H0. done.
  - (* DispHandle, the context being cancelled already *)
    destruct Hlog as [L1 L2 L3 L4 L5]. split; simpl; try done.
    + intros e0 [He0|He0]%elem_of_app.
      * destruct (L2 e0 He0) as [? Ho]. split; [done|].
        destruct Ho as [?|Hs]; [by left|right]. exact Hs.
      * apply list_elem_of_singleton in He0 as ->. split; [done|].
        destruct (L3 e H) as [?|[->|Hs]]; [by left|done|right]. exact Hs.
    + intros j u e0 Hj He0.
      destruct (L5 j u e0 Hj He0) as [?|[Hd|?]]; auto.
      * left. apply elem_of_app. by left.
      * left. apply elem_of_app. right. rewrite H in Hd. simplify_eq.
        by apply list_elem_of_singleton.
  - (* DispHandle *)
    destruct Hlog as [L1 L2 L3 L4 L5]. split; simpl; try done.
    + intros e0 [He0|He0]%elem_of_app.
      * destruct (L2 e0 He0) as [? Ho]. split; [done|].
        destruct Ho as [?|Hs]; [by left|right]. exact Hs.
      * apply list_elem_of_singleton in He0 as ->. split; [done|].
        destruct (L3 e H) as [?|[->|Hs]]; [by left|done|right]. exact Hs.
    + intros j u e0 Hj He0.
      destruct (L5 j u e0 Hj He0) as [?|[Hd|?]]; auto.
      * left. apply elem_of_app. by left.
      * left. apply elem_of_app. right. rewrite H in Hd. simplify_eq.
        by apply list_elem_of_singleton.
  - (* LisTake *)
    apply (log_inv_frame lt); simpl; try done; try (by destruct Hlog); auto.
    intros c e [= <- <-]. unfold signal_event. case_match; auto.
  - (* LisForward *)
    apply (log_inv_frame lt); simpl; try done; try (by destruct Hlog).
    + by rewrite H0.
    + rewrite H0. intros e0 [= <-]. right.
      destruct Hlog as [_ _ _ L4 _].
      destruct (L4 count e H) as [?|?]; auto.
    + rewrite H0. done.
Qed.

Lemma reachable_log_inv lt : reachable lt → log_inv lt.
Proof.
  intros [tr Hrun]. revert lt Hrun.
  induction tr as [|l tr IH] using rev_ind; intros lt Hrun.
  - simplify_eq/=. split; simpl; try done.
    + intros e He. by apply elem_of_nil in He.
  - rewrite run_app in Hrun.
    destruct (run New tr) as [lt1|] eqn:Hrun1; simplify_eq/=.
    destruct (step l lt1) as [lt2|] eqn:Hstep; simplify_eq/=.
    eapply step_log_inv; [|done|by apply IH].
    apply reachable_inv. by exists tr.
Qed.



(** X6. A start-up error that a supervising goroutine has sent to the error
    channel is not lost: unless the process has been ended, it is in the
    log or with the dispatcher, and once the goroutines of the package have
    run as far as they can it is in the log and the context is cancelled. *)
Theorem X6_forwarded_error_is_logged tr lt i t e :
  run New tr = Some lt → tasks lt !! i = Some t → forwarded t = Some e →
  exited lt = None →
  (e ∈ logged lt ∨ dispatcher lt = DispGot e) ∧
  (quiescent lt = true → e ∈ logged lt ∧ ctxDone lt = true).
Proof.
  intros Hrun Hi He Hlive.
  destruct (reachable_log_inv lt (ex_intro _ tr Hrun)) as [H1 _ _ _ H5].
  destruct (H5 i t e Hi He) as [Hin|[Hd|?]]; [| |done].
  - split; [by left|]. intros _. split; [done|].
    apply H1. intros Hnil. rewrite Hnil in Hin. by apply elem_of_nil in Hin.
  - split; [by right|]. intros Hq.
    pose proof (quiescent_blocked lt DispHandle Hq eq_refl) as Hb.
    unfold step, live_step in Hb. by rewrite Hlive, Hd in Hb.
Qed.

Lemma X6_witness :
  run New failing_trace = Some failing_final ∧
  tasks failing_final !! 0 = Some failed_task ∧
  forwarded failed_task = Some bind_error ∧
  exited failing_final = None ∧
  (bind_error ∈ logged failing_final ∨
   dispatcher failing_final = DispGot bind_error) ∧
  (quiescent failing_final = true →
   bind_error ∈ logged failing_final ∧ ctxDone failing_final = true).
Proof.
  split; [reflexivity|]. split; [reflexivity|]. split; [reflexivity|].
  split; [reflexivity|].
  apply (X6_forwarded_error_is_logged failing_trace failing_final 0
           failed_task bind_error); reflexivity.
Defined.

(** *** Stopping a running service *)

Local Arguments with_task : simpl never.

Lemma with_task_id i t lt : tasks lt !! i = Some t → with_task i t lt = lt.
Proof.
  intros Hi. unfold with_task. rewrite list_insert_id by done. by destruct lt.
Qed.

Lemma step_with_task l i b u u' lt :
  exited lt = None → i < length (tasks lt) → index_of l = Some i →
  ctxDone lt = b → task_step l b u = Some u' →
  step l (with_task i u lt) = Some (with_task i u' lt).
Proof.
  intros Hlive Hlt Hidx Hb Htask. unfold step, with_task. simpl.
  rewrite Hlive.
  destruct l; simplify_eq/=; try done;
    rewrite list_lookup_insert_eq by done; simpl; rewrite Htask; simpl;
    by rewrite list_insert_insert_eq.
Qed.

Lemma step_GoExit_with_task i u n lt :
  exited lt = None → i < length (tasks lt) →
  gofn u = GoDefer → startWg u = S n →
  step (GoExit i) (with_task i u lt)
  = Some (with_task i (set_gofn GoDone (set_startWg n u)) lt).
Proof.
  intros Hlive Hlt Hg Hw. unfold step, with_task. simpl. rewrite Hlive.
  rewrite list_lookup_insert_eq by done. simpl. rewrite Hg, Hw. simpl.
  by rewrite list_insert_insert_eq.
Qed.

Lemma step_SupExit_with_task i u n lt :
  exited lt = None → i < length (tasks lt) →
  sup u = SupDefer → serviceWg lt = S n →
  step (SupExit i) (with_task i u lt)
  = Some (set_tasks (<[i := set_sup SupDone u]> (tasks lt))
            (set_serviceWg n lt)).
Proof.
  intros Hlive Hlt Hs Hn. unfold step, with_task. simpl. rewrite Hlive.
  rewrite list_lookup_insert_eq by done. simpl. rewrite Hs, Hn. simpl.
  by rewrite list_insert_insert_eq.
Qed.

(** X7. A running service is stopped in full once the context is
    cancelled: the supervising goroutine calls [Stop], [Start] returns nil,
    the goroutine of [Start] finishes, [startWg.Wait()] returns and
    [serviceWg.Done()] lowers the counter by one, whether [Stop] returns
    before [Start] or after; the task ends with one call of [Start], one of
    [Stop], and nothing sent to the error channel. *)
Theorem X7_clean_stop tr lt i t :
  run New tr = Some lt → tasks lt !! i = Some t →
  sup t = SupSelect → gofn t = GoInStart →
  ctxDone lt = true → exited lt = None →
  0 < serviceWg lt ∧
  run lt (stop_then_return i) = Some (after_clean_stop i lt) ∧
  run lt (return_then_stop i) = Some (after_clean_stop i lt).
Proof.
  intros Hrun Hi Hs Hg Hc Hlive. assert (reachable lt) as Hr by (by exists tr).
  pose proof (reachable_task _ _ _ Hr Hi) as [Hgo Hsup].
  pose proof (reachable_inv _ Hr) as [_ Hwg _ _ _ _].
  pose proof (counted_le_sum _ _ _ Hi) as Hle. rewrite <- Hwg in Hle.
  pose proof (lookup_lt_Some _ _ _ Hi) as Hlt.
  unfold go_ok, sup_ok, counted in *.
  destruct t as [s g w sc sr pc fw]; simplify_eq/=.
  destruct Hgo as (-> & -> & ->). destruct Hsup as (_ & -> & -> & _).
  destruct (serviceWg lt) as [|n] eqn:Hn; [lia|].
  split; [lia|].
  assert (with_task i running_task lt = lt) as Hid
    by (apply with_task_id; exact Hi).
  replace (step (SelectDone i) lt)
    with (step (SelectDone i) (with_task i running_task lt))
    by (by rewrite Hid).
  unfold after_clean_stop, stopped_task. rewrite Hn.
  split.
  - erewrite (step_with_task (SelectDone i)); [|done..]. simpl.
    erewrite (step_with_task (SvcStopReturns i)); [|done..]. simpl.
    erewrite (step_with_task (SvcStartReturns i None)); [|done..]. simpl.
    erewrite step_GoExit_with_task; [|done..]. simpl.
    erewrite (step_with_task (SupWait i)); [|done..]. simpl.
    erewrite step_SupExit_with_task; [|done..]. done.
  - erewrite (step_with_task (SelectDone i)); [|done..]. simpl.
    erewrite (step_with_task (SvcStartReturns i None)); [|done..]. simpl.
    erewrite step_GoExit_with_task; [|done..]. simpl.
    erewrite (step_with_task (SvcStopReturns i)); [|done..]. simpl.
    erewrite (step_with_task (SupWait i)); [|done..]. simpl.
    erewrite step_SupExit_with_task; [|done..]. done.
Qed.

Lemma X7_witness :
  run New cancelled_trace = Some cancelled_state ∧
  tasks cancelled_state !! 0 = Some running_task ∧
  0 < serviceWg cancelled_state ∧
  run cancelled_state (stop_then_return 0)
  = Some (after_clean_stop 0 cancelled_state) ∧
  run cancelled_state (return_then_stop 0)
  = Some (after_clean_stop 0 cancelled_state).
Proof.
  split; [reflexivity|]. split; [reflexivity|].
  apply (X7_clean_stop cancelled_trace cancelled_state 0 running_task);
    reflexivity.
Defined.

(** X8. A service registered after the context was cancelled is stopped at
    once: its supervising goroutine can take the cancellation case of the
    [select] and call [Stop] before the goroutine of [Start] has called
    [Start]; [Start] is still called afterwards. *)
Theorem X8_stop_before_start lt :
  exited lt = None → ctxDone lt = true →
  ∃ lt', run lt (late_start lt) = Some lt' ∧
         tasks lt' !! length (tasks lt) = Some stopped_before_started ∧
         ∃ lt'' t, step (GoCall (length (tasks lt))) lt' = Some lt'' ∧
                   tasks lt'' !! length (tasks lt) = Some t ∧
                   startCalls t = 1 ∧ stopCalls t = 1.
Proof.
  intros Hlive Hc. set (n := length (tasks lt)).
  assert (∀ x, (tasks lt ++ [x]) !! n = Some x) as Hmid.
  { intros x. by apply list_lookup_middle. }
  assert (∀ x y, <[n := y]> (tasks lt ++ [x]) = tasks lt ++ [y]) as Hins.
  { intros x y. unfold n. rewrite insert_app_r_alt by lia.
    by rewrite Nat.sub_diag. }
  assert (step CallStart lt = Some (Start lt)) as H1.
  { unfold step. by rewrite Hlive. }
  assert (step (SupGo n) (Start lt)
          = Some (set_tasks
                    (tasks lt ++ [mkTask SupSelect GoSpawned 1 0 None 0 None])
                    (Start lt))) as H2.
  { unfold step, live_step, task_step. simpl. rewrite Hlive, Hmid. simpl.
    by rewrite Hins. }
  assert (step (SelectDone n)
            (set_tasks
               (tasks lt ++ [mkTask SupSelect GoSpawned 1 0 None 0 None])
               (Start lt))
          = Some (set_tasks (tasks lt ++ [stopped_before_started])
                    (Start lt))) as H3.
  { unfold step, live_step, task_step. simpl. rewrite Hlive, Hmid. simpl.
    rewrite Hc. simpl. by rewrite Hins. }
  assert (step (GoCall n)
            (set_tasks (tasks lt ++ [stopped_before_started]) (Start lt))
          = Some (set_tasks
                    (tasks lt ++ [mkTask SupInStop GoInStart 1 1 None 1 None])
                    (Start lt))) as H4.
  { unfold step, live_step, task_step. simpl. rewrite Hlive, Hmid. simpl.
    by rewrite Hins. }
  unfold late_start. fold n. simpl. rewrite H1. simpl. rewrite H2. simpl.
  rewrite H3. simpl.
  eexists. split; [done|]. split; [apply Hmid|].
  eexists _, _. split; [exact H4|]. split; [apply Hmid|]. done.
Qed.

Lemma X8_witness :
  exited cancelled_state = None ∧ ctxDone cancelled_state = true ∧
  ∃ lt', run cancelled_state (late_start cancelled_state) = Some lt' ∧
         tasks lt' !! length (tasks cancelled_state)
         = Some stopped_before_started ∧
         ∃ lt'' t,
           step (GoCall (length (tasks cancelled_state))) lt' = Some lt'' ∧
           tasks lt'' !! length (tasks cancelled_state) = Some t ∧
           startCalls t = 1 ∧ stopCalls t = 1.
Proof.
  split; [reflexivity|]. split; [reflexivity|].
  apply (X8_stop_before_start cancelled_state); reflexivity.
Defined.

(** *** Calls of [Start] *)

(** X12. [Start] is called at most once on a registered service, it has
    been called if it has returned, and once the goroutines of the package
    have run as far as they can it has been called exactly once, also on a
    service that was registered after the shutdown. *)
Theorem X12_start_called_once tr lt i t :
  run New tr = Some lt → tasks lt !! i = Some t →
  startCalls t ≤ 1 ∧
  (startRet t ≠ None → startCalls t = 1) ∧
  (quiescent lt = true → exited lt = None → startCalls t = 1).
Proof.
  intros Hrun Hi. assert (reachable lt) as Hr by (by exists tr).
  pose proof (reachable_task _ _ _ Hr Hi) as [Hg Hs].
  unfold go_ok, sup_ok in *.
  split; [|split].
  - destruct (gofn t); lia.
  - destruct (gofn t); naive_solver.
  - intros Hq Hlive.
    pose proof (quiescent_blocked lt (SupGo i) Hq eq_refl) as H1.
    pose proof (quiescent_blocked lt (GoCall i) Hq eq_refl) as H2.
    unfold step, live_step, task_step in H1, H2.
    rewrite Hlive, Hi in H1, H2. simpl in H1, H2.
    destruct (sup t) eqn:Hsup; try done; destruct (gofn t) eqn:Hgo; try done;
      naive_solver.
Qed.

Lemma X12_witness :
  run New example_trace = Some example_final ∧
  tasks example_final !! 0 = Some stopped_task ∧
  startCalls stopped_task ≤ 1 ∧
  (startRet stopped_task ≠ None → startCalls stopped_task = 1) ∧
  (quiescent example_final = true → exited example_final = None →
   startCalls stopped_task = 1).
Proof.
  split; [reflexivity|]. split; [reflexivity|].
  apply (X12_start_called_once example_trace example_final 0 stopped_task);
    reflexivity.
Defined.

(** *** The channel of the signals *)

Lemma step_buffered l lt lt' :
  step l lt = Some lt' →
  match l with
  | OsSignal sig =>
      (signals lt = None ∧ signals lt' = Some sig) ∨
      (signals lt ≠ None ∧ signals lt' = signals lt)
  | LisTake =>
      ∃ sig count e, signals lt = Some sig ∧ signals lt' = None ∧
                     listener lt' = LisSend count e
  | _ => signals lt' = signals lt
  end.
Proof.
  intros Hstep. open_step Hstep.
  destruct l; simpl in Hstep;
    try (destruct (tasks lt !! i) as [t|]; simpl in Hstep; [|done];
         try (destruct (task_step _ _ t); simpl in Hstep; [|done])).
  all: repeat case_match; simplify_eq/=; eauto 6.
  all: right; split; congruence.
Qed.

Lemma received_sublist tr : ∀ lt lt',
  run lt tr = Some lt' →
  received lt tr ++ buffered lt' `sublist_of` buffered lt ++ delivered tr.
Proof.
  unfold received, buffered.
  induction tr as [|l tr IH]; intros lt lt' Hrun; simplify_eq/=.
  { by rewrite app_nil_r. }
  destruct (step l lt) as [lt1|] eqn:Hstep; simplify_eq/=.
  specialize (IH lt1 lt' Hrun).
  pose proof (step_buffered _ _ _ Hstep) as Hb.
  destruct l; simpl in *;
    try (rewrite Hb in IH; by repeat case_match).
  - (* a signal is delivered *)
    destruct Hb as [[H0 H1]|[H0 H1]]; rewrite H1 in IH.
    + by rewrite H0.
    + destruct (signals lt) as [s0|]; [|done]. simpl in *.
      apply sublist_cons_r in IH as [IH|(k & Hk & IH)].
      * by do 2 apply sublist_cons.
      * rewrite Hk. apply sublist_skip. by apply sublist_cons.
  - (* the listener takes the signal *)
    destruct Hb as (s & c & e & H0 & H1 & H2).
    rewrite H0, H2. rewrite H1 in IH. simpl in *.
    by apply sublist_skip.
Qed.

(** X9. The listener takes from its channel only signals the operating
    system has delivered, in the order of delivery and each at most once:
    the signals received so far, followed by the one waiting in the buffer,
    form a subsequence of the signals delivered.  (A signal delivered while
    the buffer is full is dropped.) *)
Theorem X9_signals_received_in_order tr lt :
  run New tr = Some lt →
  received New tr ++ buffered lt `sublist_of` delivered tr ∧
  length (received New tr) ≤ length (delivered tr).
Proof.
  intros Hrun. pose proof (received_sublist tr New lt Hrun) as Hsub.
  split; [done|].
  apply sublist_length in Hsub. rewrite length_app in Hsub.
  change (buffered New) with (@nil Signal) in Hsub. simpl in Hsub. lia.
Qed.

Lemma X9_witness :
  run New burst_trace = Some burst_state ∧
  received New burst_trace = [SIGINT; SIGINT] ∧
  delivered burst_trace = [SIGINT; SIGINT; SIGINT] ∧
  received New burst_trace ++ buffered burst_state
    `sublist_of` delivered burst_trace ∧
  length (received New burst_trace) ≤ length (delivered burst_trace).
Proof.
  split; [by vm_compute|]. split; [by vm_compute|]. split; [by vm_compute|].
  apply (X9_signals_received_in_order burst_trace burst_state). by vm_compute.
Defined.

(** *** From a signal to its effect *)

Lemma reachable_lis_inv lt : reachable lt → lis_inv lt.
Proof.
  intros [tr Hrun]. revert lt Hrun.
  induction tr as [|l tr IH] using rev_ind; intros lt Hrun.
  - by simplify_eq/=.
  - rewrite run_app in Hrun.
    destruct (run New tr) as [lt1|] eqn:Hrun1; simplify_eq/=.
    destruct (step l lt1) as [lt2|] eqn:Hstep; simplify_eq/=.
    eapply step_lis_inv; [done| |by apply IH].
    by destruct (reachable_inv lt1 (ex_intro _ tr Hrun1)).
Qed.

Lemma handed_over_frame lt lt' :
  handed_over lt → listener lt' = listener lt →
  (graceful_seen lt → graceful_seen lt' ∨ imm_pending lt') →
  (imm_pending lt → imm_pending lt') →
  handed_over lt'.
Proof.
  unfold handed_over. intros H -> Hg Hi.
  destruct (listener lt); try done. intros Hc.
  destruct (H Hc) as [?|?]; auto.
Qed.

Lemma step_handed_over l lt lt' :
  inv lt → log_inv lt → step l lt = Some lt' →
  handed_over lt → handed_over lt'.
Proof.
  intros Hinv Hlog Hstep Hho.
  pose proof (step_ctx_mono _ _ _ Hstep) as Hmono.
  open_step Hstep.
  pose proof Hinv as [_ _ Hopen _ Hinit _]. rewrite Hopen in Hstep.
  destruct l; simpl in Hstep;
    try (destruct (tasks lt !! i) as [t|] eqn:Ht; simpl in Hstep; [|done];
         try (destruct (task_step _ _ t) as [u'|] eqn:Htstep;
              simpl in Hstep; [|done])).
  all: repeat case_match; simplify_eq/=; try exact Hho.
  all: try (apply (handed_over_frame lt);
            first [ exact Hho | reflexivity
                  | unfold graceful_seen, imm_pending; simpl;
                    rewrite ?Hlive; naive_solver ]).
  - (* CallInit *)
    unfold handed_over. simpl. lia.
  - (* SupForward *)
    apply (handed_over_frame lt); [exact Hho|reflexivity| |];
      unfold graceful_seen, imm_pending; simpl.
    + intros [Hd|[Hin Hc]]; [congruence|]. left. by right.
    + intros [Hd|Hex]; congruence.
  - (* DispHandle, the context being cancelled already *)
    apply (handed_over_frame lt); [exact Hho|reflexivity| |];
      unfold graceful_seen, imm_pending; simpl.
    + intros [Hd|[Hin Hc]]; left; right; (split; [|done]);
        apply elem_of_app.
      * right. rewrite H in Hd. simplify_eq. by apply list_elem_of_singleton.
      * by left.
    + intros [Hd|Hex]; [|congruence]. rewrite H in Hd. by simplify_eq.
  - (* DispHandle *)
    apply (handed_over_frame lt); [exact Hho|reflexivity| |];
      unfold graceful_seen, imm_pending; simpl.
    + intros [Hd|[Hin Hc]]; left; right; (split; [|done]);
        apply elem_of_app.
      * right. rewrite H in Hd. simplify_eq. by apply list_elem_of_singleton.
      * by left.
    + intros [Hd|Hex]; [|congruence]. rewrite H in Hd. by simplify_eq.
  - (* LisTake *)
    by unfold handed_over.
  - (* LisForward *)
    unfold handed_over. simpl. intros _.
    destruct Hlog as [_ _ _ Hsend _].
    unfold graceful_seen, imm_pending. simpl.
    destruct (Hsend _ _ H) as [->| ->]; auto.
Qed.

Lemma reachable_handed_over lt : reachable lt → handed_over lt.
Proof.
  intros [tr Hrun]. revert lt Hrun.
  induction tr as [|l tr IH] using rev_ind; intros lt Hrun.
  - by simplify_eq/=.
  - rewrite run_app in Hrun.
    destruct (run New tr) as [lt1|] eqn:Hrun1; simplify_eq/=.
    destruct (step l lt1) as [lt2|] eqn:Hstep; simplify_eq/=.
    assert (reachable lt1) as Hr1 by (by exists tr).
    eapply step_handed_over;
      [by apply reachable_inv|by apply reachable_log_inv|done|by apply IH].
Qed.

(** X10. Once the listener has handed over the error of a signal and is
    back at its receive, the signal has its effect.  After the first signal
    [ErrShutdownSignalReceived] is with the dispatcher, or it is logged and
    the context is cancelled, or the process is being ended; after a second
    signal the dispatcher holds [ErrImmediateShutdownSignalReceived] and
    is about to call [os.Exit], or the process has ended. *)
Theorem X10_signal_takes_effect tr lt count :
  run New tr = Some lt → listener lt = LisRecv count → (1 ≤ count)%Z →
  (graceful_seen lt ∨ imm_pending lt) ∧
  ((2 ≤ count)%Z → imm_pending lt).
Proof.
  intros Hrun Hl Hc. assert (reachable lt) as Hr by (by exists tr).
  pose proof (reachable_handed_over lt Hr) as Hho.
  pose proof (reachable_lis_inv lt Hr) as Hli.
  unfold handed_over, lis_inv in *. rewrite Hl in Hho, Hli.
  split; [auto|]. intros H2. destruct Hli as [?|[?|[_ ?]]]; [lia|lia|done].
Qed.

Lemma X10_witness :
  run New escalate_trace = Some escalate_state ∧
  listener escalate_state = LisRecv 2%Z ∧ (1 ≤ 2)%Z ∧
  (graceful_seen escalate_state ∨ imm_pending escalate_state) ∧
  ((2 ≤ 2)%Z → imm_pending escalate_state).
Proof.
  split; [by vm_compute|]. split; [reflexivity|]. split; [lia|].
  apply (X10_signal_takes_effect escalate_trace escalate_state 2%Z);
    [by vm_compute|reflexivity|lia].
Defined.



(** *** From a failing [Start] to its effect *)

Lemma cancelFunc_set lt : cancelFunc lt = set_ctxDone true lt.
Proof.
  unfold cancelFunc. destruct (ctxDone lt) eqn:Hc; [|done].
  destruct lt; simpl in *. by subst.
Qed.

Lemma step_SupForward_with_task i u e lt :
  exited lt = None → errClosed lt = false → dispatcher lt = DispRecv →
  i < length (tasks lt) → sup u = SupSendErr e →
  step (SupForward i) (with_task i u lt)
  = Some (with_task i (set_sup SupDefer (set_forwarded (Some e) u))
            (set_dispatcher (DispGot e) lt)).
Proof.
  intros Hlive Hopen Hd Hlt Hs. unfold step, with_task. simpl. rewrite Hlive.
  rewrite list_lookup_insert_eq by done. simpl. rewrite Hs.
  unfold errCh_send. simpl. rewrite Hopen, Hd. simpl.
  by rewrite list_insert_insert_eq.
Qed.

Lemma step_DispHandle_with_task i u e lt :
  exited lt = None → dispatcher lt = DispGot e →
  step DispHandle (with_task i u lt)
  = Some (if is_ErrImmediate e then with_task i u (os_Exit 1%Z lt)
          else with_task i u
                 (set_dispatcher DispRecv
                    (set_ctxDone true (set_logged (logged lt ++ [e]) lt)))).
Proof.
  intros Hlive Hd. unfold step, with_task. simpl. rewrite Hlive, Hd.
  unfold handleErrors_iter, Shutdown. rewrite cancelFunc_set.
  by destruct (is_ErrImmediate e).
Qed.

(** X11. When [Start] of a running service returns an error [e] and the
    dispatcher is at its receive, the error goes all the way: the goroutine
    of [Start] hands it to the supervising goroutine, which sends it to the
    error channel.  If [e] is [ErrImmediateShutdownSignalReceived] (the
    value is exported, a service can return it) the dispatcher ends the
    process with status 1.  Otherwise [e] is logged and the context is
    cancelled; both goroutines of the service then finish, [Stop] is not
    called on it and the counter of [serviceWg] goes down by one. *)
Theorem X11_start_failure_path tr lt i t e :
  run New tr = Some lt → tasks lt !! i = Some t →
  sup t = SupSelect → gofn t = GoInStart →
  dispatcher lt = DispRecv → exited lt = None →
  if is_ErrImmediate e
  then ∃ lt', run lt (failure_report i e) = Some lt' ∧
              exited lt' = Some 1%Z ∧ ctxDone lt' = ctxDone lt ∧
              logged lt' = logged lt
  else ∃ lt', run lt (failure_path i e) = Some lt' ∧
              exited lt' = None ∧ ctxDone lt' = true ∧
              logged lt' = logged lt ++ [e] ∧
              tasks lt' = <[i := failed_with e]> (tasks lt) ∧
              S (serviceWg lt') = serviceWg lt.
Proof.
  intros Hrun Hi Hs Hg Hd Hlive. assert (reachable lt) as Hr by (by exists tr).
  pose proof (reachable_task _ _ _ Hr Hi) as [Hgo Hsup].
  pose proof (reachable_inv _ Hr) as [_ Hwg Hopen _ _ _].
  pose proof (counted_le_sum _ _ _ Hi) as Hle. rewrite <- Hwg in Hle.
  pose proof (lookup_lt_Some _ _ _ Hi) as Hlt.
  unfold go_ok, sup_ok, counted in *.
  destruct t as [s g w sc sr pc fw]; simplify_eq/=.
  destruct Hgo as (-> & -> & ->). destruct Hsup as (_ & -> & -> & _).
  destruct (serviceWg lt) as [|n] eqn:Hn; [lia|].
  assert (with_task i running_task lt = lt) as Hid
    by (apply with_task_id; exact Hi).
  replace (step (SvcStartReturns i (Some e)) lt)
    with (step (SvcStartReturns i (Some e)) (with_task i running_task lt))
    by (by rewrite Hid).
  erewrite (step_with_task (SvcStartReturns i (Some e))); [|done..]. simpl.
  erewrite (step_with_task (SelectErr i)); [|done..]. simpl.
  erewrite step_SupForward_with_task; [|done..]. simpl.
  erewrite step_DispHandle_with_task; [|done..]. simpl.
  destruct (is_ErrImmediate e) eqn:Himm.
  - eexists. split; [done|]. by simpl.
  - simpl.
    erewrite step_SupExit_with_task; [|done..]. simpl.
    change (set_tasks (<[i := ?u]> (tasks lt)) ?x)
      with (with_task i u x).
    erewrite step_GoExit_with_task; [|done..]. simpl.
    eexists. split; [done|]. unfold with_task. by simpl.
Qed.

Lemma X11_witness :
  run New idle_trace = Some idle_state ∧
  tasks idle_state !! 0 = Some running_task ∧
  ∃ lt', run idle_state (failure_path 0 bind_error) = Some lt' ∧
         exited lt' = None ∧ ctxDone lt' = true ∧
         logged lt' = logged idle_state ++ [bind_error] ∧
         tasks lt' = <[0 := failed_with bind_error]> (tasks idle_state) ∧
         S (serviceWg lt') = serviceWg idle_state.
Proof.
  split; [reflexivity|]. split; [reflexivity|].
  apply (X11_start_failure_path idle_trace idle_state 0 running_task
           bind_error); reflexivity.
Defined.
